(** * gif-maker: the frame ingestion and animation-assembly pipeline of [app.py]

    A shallow embedding of the pure core of [src/app.py] (archive filter,
    natural sort key, frame loader, sequence builder, animation encoder)
    and the properties the specification states about it.

    Modelling conventions.
    - A Python [str] is a Rocq [string]; the alphabet is ASCII, where
      [\d] and [str.isdigit] are the characters '0'..'9' and [str.lower]
      maps 'A'..'Z' to 'a'..'z'.
    - A Python [int] is a [Z].
    - An exception is a [None] (or an [inl] carrying the exception).
    - Pillow is an external capability: what it computes on pixel data that
      this program never inspects (decoding, resampling, colour conversion,
      median-cut quantisation) is a field of the class [Pillow]; what the
      program relies on (mode, size, info) is written out. *)

From Stdlib Require Import ZArith List String Ascii Bool Lia Permutation Sorted.
Import ListNotations.

Local Open Scope string_scope.
Local Open Scope list_scope.

(* ================================================================== *)
(** ** Python string primitives used by [app.py] *)

(** Code point of a character. *)
Definition ord (c : ascii) : N := N_of_ascii c.

(** [c.isdigit()] on the ASCII alphabet; also the class [\d]. *)
Definition is_digit (c : ascii) : bool :=
  (48 <=? ord c)%N && (ord c <=? 57)%N.

(** [c.lower()] on the ASCII alphabet. *)
Definition lower_char (c : ascii) : ascii :=
  if (65 <=? ord c)%N && (ord c <=? 90)%N then ascii_of_N (ord c + 32) else c.

(** [s.lower()]. *)
Fixpoint str_lower (s : string) : string :=
  match s with
  | EmptyString => EmptyString
  | String c s' => String (lower_char c) (str_lower s')
  end.

Fixpoint all_digits (s : string) : bool :=
  match s with
  | EmptyString => true
  | String c s' => is_digit c && all_digits s'
  end.

(** [s.isdigit()]: every character is a digit and there is at least one. *)
Definition str_isdigit (s : string) : bool :=
  match s with
  | EmptyString => false
  | String _ _ => all_digits s
  end.

Definition digit_val (c : ascii) : Z := Z.of_N (ord c) - 48.

Fixpoint int_acc (acc : Z) (s : string) : Z :=
  match s with
  | EmptyString => acc
  | String c s' => int_acc (10 * acc + digit_val c) s'
  end.

(** [int(s)] for a string of decimal digits. *)
Definition int_of_str (s : string) : Z := int_acc 0 s.

(** [s.startswith(p)]. *)
Definition str_startswith (p s : string) : bool := String.prefix p s.

(** [p in s]: [p] occurs in [s] as a substring. *)
Fixpoint str_in (p s : string) : bool :=
  String.prefix p s ||
  match s with
  | EmptyString => false
  | String _ s' => str_in p s'
  end.

(** [s.endswith(p)]. *)
Fixpoint str_endswith (p s : string) : bool :=
  String.eqb s p ||
  match s with
  | EmptyString => false
  | String _ s' => str_endswith p s'
  end.

(** Split at the last occurrence of the character [sep]: the part before it
    and the part after it. *)
Fixpoint rpartition (sep : ascii) (s : string) : option (string * string) :=
  match s with
  | EmptyString => None
  | String c s' =>
      match rpartition sep s' with
      | Some (h, t) => Some (String c h, t)
      | None => if Ascii.eqb c sep then Some (EmptyString, s') else None
      end
  end.

(** [s.rsplit(sep, 1)] for a one-character separator. *)
Definition str_rsplit1 (sep : ascii) (s : string) : list string :=
  match rpartition sep s with
  | Some (h, t) => [h; t]
  | None => [s]
  end.

(** [os.path.basename(p)] (posixpath): [p[p.rfind('/') + 1:]]. *)
Definition basename (p : string) : string :=
  match rpartition "/" p with
  | Some (_, t) => t
  | None => p
  end.

(** [re.findall(r"\d+|\D+", s)]: the maximal runs of digits and of
    non-digits of [s], in order of appearance. *)
Fixpoint re_findall_runs (s : string) : list string :=
  match s with
  | EmptyString => []
  | String c s' =>
      match re_findall_runs s' with
      | String d r :: rest =>
          if Bool.eqb (is_digit c) (is_digit d)
          then String c (String d r) :: rest
          else String c EmptyString :: String d r :: rest
      | _ => [String c EmptyString]
      end
  end.

(* ================================================================== *)
(** ** Natural sort key ([natural_key], app.py 15-19) *)

(** An element of the key: [int(text)] or [text.lower()]. *)
Inductive token : Type :=
| TInt (n : Z)
| TStr (s : string).

Definition token_of (text : string) : token :=
  if str_isdigit text then TInt (int_of_str text) else TStr (str_lower text).

Definition natural_key (s : string) : list token :=
  map token_of (re_findall_runs s).

(** Python [==] on key elements: an [int] never equals a [str]. *)
Definition token_eqb (a b : token) : bool :=
  match a, b with
  | TInt x, TInt y => (x =? y)%Z
  | TStr x, TStr y => String.eqb x y
  | _, _ => false
  end.

(** Python [<] on key elements: [None] is the [TypeError] of comparing an
    [int] with a [str]. *)
Definition token_lt (a b : token) : option bool :=
  match a, b with
  | TInt x, TInt y => Some (x <? y)%Z
  | TStr x, TStr y => Some (String.ltb x y)
  | _, _ => None
  end.

(** Python [<] on lists: the first position where the elements are not
    [==] decides, with [<] on these elements; without one the shorter list
    is the smaller. *)
Fixpoint key_lt (a b : list token) : option bool :=
  match a, b with
  | [], [] => Some false
  | [], _ :: _ => Some true
  | _ :: _, [] => Some false
  | x :: a', y :: b' => if token_eqb x y then key_lt a' b' else token_lt x y
  end.

(** [list.sort(key=..., reverse=...)]: a stable sort that only asks [<] of
    the keys; an exception raised by a comparison aborts the sort. *)
Section PySort.
Context {A K : Type}.
Variable key : A -> K.
Variable lt : K -> K -> option bool.

Fixpoint insert_sorted (x : A) (l : list A) : option (list A) :=
  match l with
  | [] => Some [x]
  | y :: l' =>
      match lt (key y) (key x) with
      | None => None
      | Some true => option_map (cons y) (insert_sorted x l')
      | Some false => Some (x :: y :: l')
      end
  end.

Fixpoint sort_asc (l : list A) : option (list A) :=
  match l with
  | [] => Some []
  | x :: l' =>
      match sort_asc l' with
      | None => None
      | Some s => insert_sorted x s
      end
  end.

(** With [reverse=True] the list is reversed, sorted, and reversed again,
    which keeps equal keys in their original order. *)
Definition list_sort (reverse : bool) (l : list A) : option (list A) :=
  if reverse then option_map (@rev A) (sort_asc (rev l)) else sort_asc l.

End PySort.

(** [names.sort(key=natural_key, reverse=...)] (app.py 193). *)
Definition sort_names (reverse : bool) (names : list string) : option (list string) :=
  list_sort natural_key key_lt reverse names.

(* ================================================================== *)
(** ** Archive filter ([_is_valid_zip_image], [list_images_in_zip], app.py 11, 26-41) *)

Definition SUPPORTED_EXTS : list string :=
  [".png"; ".jpg"; ".jpeg"; ".bmp"; ".gif"; ".tif"; ".tiff"; ".webp"].

(** [ext in SUPPORTED_EXTS]. *)
Definition in_exts (ext : string) : bool := existsb (String.eqb ext) SUPPORTED_EXTS.

Definition _is_valid_zip_image (name : string) : bool :=
  if str_startswith "__MACOSX/" name || str_in "/__MACOSX/" name then false
  else
    let base := basename name in
    if str_startswith "._" base || str_startswith "." base then false
    else if str_endswith "/" name then false
    else
      let ext :=
        if str_in "." base
        then ("." ++ str_lower (last (str_rsplit1 "." base) EmptyString))%string
        else EmptyString in
      in_exts ext.

(** An archive: its entries in directory order, each a name and its bytes. *)
Definition bytes : Type := list Byte.byte.
Definition ZipFile : Type := list (string * bytes).

Definition namelist (zf : ZipFile) : list string := map fst zf.

Definition list_images_in_zip (zf : ZipFile) : list string :=
  filter _is_valid_zip_image (namelist zf).

(** [zf.open(name)]: the entry recorded last under that name; [None] is
    the [KeyError] of a name the archive does not hold. *)
Definition zf_open (zf : ZipFile) (name : string) : option bytes :=
  option_map snd (find (fun e => String.eqb (fst e) name) (rev zf)).

(* ================================================================== *)
(** ** Images (Pillow) *)

(** The band values of one pixel, as [getpixel] returns them. *)
Definition Pixel : Type := list Z.

(** A value stored under [info["transparency"]]. *)
Inductive info_value : Type :=
| InfoInt (n : Z)
| InfoBytes (b : list Z).

Record Image : Type := mkImage {
  mode : string;
  size : Z * Z;
  data : list Pixel;            (* row-major *)
  palette : list Pixel;         (* colours of a "P" image *)
  info_transparency : option info_value
}.

Inductive resampling : Type := NEAREST | BICUBIC | LANCZOS.
Inductive dithering : Type := NONE | FLOYDSTEINBERG.

(** What Pillow computes and this program never looks into. *)
Class Pillow : Type := {
  (** [Image.open(fp)] followed by [im.load()]; [None] is any exception. *)
  decode : bytes -> option Image;
  (** pixel data, palette and info of [im.convert(mode)] *)
  convert_data : string -> Image -> list Pixel;
  convert_palette : string -> Image -> list Pixel;
  convert_info : string -> Image -> option info_value;
  (** pixel data of [im.resize(size, filter)] *)
  resample : resampling -> Image -> Z * Z -> list Pixel;
  (** palette and pixel indices of
      [im.convert("P", palette=ADAPTIVE, colors=colors, dither=dither)] *)
  quantize : Z -> dithering -> Image -> list Pixel * list Z;
  (** one pixel of [Image.alpha_composite(dst, src)] *)
  over : Pixel -> Pixel -> Pixel;
  (** [im.save(out, format="GIF", save_all=True, append_images=..., ...)]:
      first the frames, then duration, loop, disposal, optimize *)
  save_gif : list Image -> Z -> Z -> Z -> bool -> bytes
}.

(** The contract of the adaptive quantiser: the palette has at most
    [colors] entries and every pixel is an index into it. *)
Definition quantize_in_range `{Pillow} : Prop :=
  forall colors d im,
    (1 <= colors)%Z ->
    (Z.of_nat (List.length (fst (quantize colors d im))) <= colors)%Z /\
    Forall (fun i => (0 <= i < Z.of_nat (List.length (fst (quantize colors d im))))%Z)
           (snd (quantize colors d im)).

Section PillowOps.
Context `{Pillow}.

(** [im.convert(mode)]: an image of that mode and of the same size. *)
Definition convert (m : string) (im : Image) : Image :=
  {| mode := m; size := size im;
     data := convert_data m im;
     palette := convert_palette m im;
     info_transparency := convert_info m im |}.

(** [im.convert("P", palette=Image.ADAPTIVE, colors=colors, dither=d)]. *)
Definition convert_P_adaptive (colors : Z) (d : dithering) (im : Image) : Image :=
  {| mode := "P"; size := size im;
     data := map (fun i => [i]) (snd (quantize colors d im));
     palette := fst (quantize colors d im);
     info_transparency := convert_info "P" im |}.

Definition size_eqb (a b : Z * Z) : bool :=
  (fst a =? fst b)%Z && (snd a =? snd b)%Z.

(** [im.resize(size, filter)]: a copy when [size] is the size of the image;
    otherwise [None] is the [ValueError] of a size without width or height
    ("height and width must be > 0"), and mode, palette and info are kept. *)
Definition resize (im : Image) (sz : Z * Z) (f : resampling) : option Image :=
  if size_eqb (size im) sz then Some im
  else if (fst sz <? 1)%Z || (snd sz <? 1)%Z then None
  else Some {| mode := mode im; size := sz;
               data := resample f im sz;
               palette := palette im;
               info_transparency := info_transparency im |}.

(** [Image.new(mode, size, color)]. *)
Definition new (m : string) (sz : Z * Z) (color : Pixel) : Image :=
  {| mode := m; size := sz;
     data := repeat color (Z.to_nat (fst sz * snd sz));
     palette := [];
     info_transparency := None |}.

(** [Image.alpha_composite(dst, src)]. *)
Definition alpha_composite (dst src : Image) : Image :=
  {| mode := "RGBA"; size := size dst;
     data := map (fun p => over (fst p) (snd p)) (combine (data dst) (data src));
     palette := [];
     info_transparency := info_transparency dst |}.

(** [im.split()[-1]]: the last band as an "L" image. *)
Definition last_band (im : Image) : Image :=
  {| mode := "L"; size := size im;
     data := map (fun p => [last p 0%Z]) (data im);
     palette := [];
     info_transparency := None |}.

(** Pillow's [DIV255] and [BLEND8]: [in1] where the mask is 0, [in2]
    where it is 255, a mix in between. *)
Definition div255 (a : Z) : Z :=
  let t := (a + 128)%Z in Z.shiftr (Z.shiftr t 8 + t) 8.

Definition blend8 (mask in1 in2 : Z) : Z :=
  div255 (in1 * (255 - mask) + in2 * mask)%Z.

Definition blend_pixel (mask : Z) (p1 p2 : Pixel) : Pixel :=
  map (fun b => blend8 mask (fst b) (snd b)) (combine p1 p2).

(** [Image.composite(image1, image2, mask)]: a copy of [image2] with
    [image1] pasted through [mask]. *)
Definition composite (image1 image2 mask : Image) : Image :=
  {| mode := mode image2; size := size image2;
     data := map (fun t => blend_pixel (hd 0%Z (snd t)) (snd (fst t)) (fst (fst t)))
                 (combine (combine (data image1) (data image2)) (data mask));
     palette := palette image2;
     info_transparency := info_transparency image2 |}.

(** [p.info["transparency"] = v]. *)
Definition set_info_transparency (v : Z) (im : Image) : Image :=
  {| mode := mode im; size := size im; data := data im; palette := palette im;
     info_transparency := Some (InfoInt v) |}.

(** Python's [round(n / d)] for [d > 0], in exact arithmetic: to the nearest
    integer, a tie to the even one. *)
Definition py_round_div (n d : Z) : Z :=
  let q := (n / d)%Z in
  let r := (n mod d)%Z in
  if (2 * r <? d)%Z then q
  else if (d <? 2 * r)%Z then (q + 1)%Z
  else if Z.even q then q else (q + 1)%Z.

(** [ImageOps.contain(image, size)]: the largest size of the image's
    aspect ratio inside [size], resampled with the default filter. *)
Definition contain_size (isz sz : Z * Z) : Z * Z :=
  let '(w, h) := isz in
  let '(sw, sh) := sz in
  (* im_ratio = w / h, dest_ratio = sw / sh *)
  if (w * sh =? sw * h)%Z then sz
  else if (sw * h <? w * sh)%Z then (sw, py_round_div (h * sw) w)
  else (py_round_div (w * sh) h, sh).

Definition contain (im : Image) (sz : Z * Z) : option Image :=
  resize im (contain_size (size im) sz) BICUBIC.

(* ================================================================== *)
(** ** Frame loader ([load_and_prepare_image], app.py 44-83) *)

Definition has_alpha (im : Image) : bool :=
  String.eqb (mode im) "RGBA" || String.eqb (mode im) "LA" ||
  (String.eqb (mode im) "P" &&
   match info_transparency im with Some _ => true | None => false end).

(** The colour conversion (app.py 56-65). *)
Definition convert_colors (background : option (Z * Z * Z)) (im : Image) : Image :=
  if has_alpha im then
    match background with
    | None => convert "RGBA" im
    | Some (r, g, b) =>
        let bg := new "RGBA" (size im) [r; g; b; 255%Z] in
        convert "RGB" (alpha_composite bg (convert "RGBA" im))
    end
  else convert "RGB" im.

(** The resize (app.py 67-76). [None] is the [ZeroDivisionError] of an
    image without height (fit) or without width (stretch), or the
    [ValueError] of [resize]. *)
Definition resize_to_width (target_width : option Z) (fit_mode : string)
    (im : Image) : option Image :=
  match target_width with
  | Some tw =>
      if negb (tw =? 0)%Z && (0 <? tw)%Z then
        if String.eqb fit_mode "fit" then
          if (snd (size im) =? 0)%Z then None
          else contain im (tw, 10 ^ 9)%Z
        else if String.eqb fit_mode "stretch" then
          let '(w, h) := size im in
          if negb (w =? tw)%Z then
            if (w =? 0)%Z then None
            else
              let new_h := Z.max 1 (py_round_div (h * tw) w) in
              resize im (tw, new_h) LANCZOS
          else Some im
        else Some im
      else Some im
  | None => Some im
  end.

(** The palette conversion (app.py 78-81). *)
Definition to_palette_step (to_palette dither : bool) (im : Image) : Image :=
  if to_palette then
    let dither_mode := if dither then FLOYDSTEINBERG else NONE in
    convert_P_adaptive 256 dither_mode im
  else im.

Definition load_and_prepare_image (zf : ZipFile) (name : string)
    (target_width : option Z) (fit_mode : string)
    (background : option (Z * Z * Z)) (to_palette dither : bool) : option Image :=
  match zf_open zf name with
  | None => None
  | Some fp =>
      match decode fp with
      | None => None
      | Some im =>
          match resize_to_width target_width fit_mode (convert_colors background im) with
          | None => None
          | Some im' => Some (to_palette_step to_palette dither im')
          end
      end
  end.

(* ================================================================== *)
(** ** Animation encoder ([build_gif], app.py 86-132) *)

(** The loop that brings the frames to one size (app.py 102-105); an
    exception of [resize] ends it. *)
Fixpoint resize_all (sz : Z * Z) (frames : list Image) : option (list Image) :=
  match frames with
  | [] => Some []
  | im :: rest =>
      match (if negb (size_eqb (size im) sz) then resize im sz LANCZOS else Some im) with
      | None => None
      | Some im' => option_map (cons im') (resize_all sz rest)
      end
  end.

(** Sizes normalised to the first frame (app.py 97-105). *)
Definition normalize_sizes (frames : list Image) : option (list Image) :=
  match frames with
  | [] => Some []
  | base :: _ => resize_all (size base) frames
  end.

(** The transparency-preserving quantiser (app.py 110-117). *)
Definition quantize_keeping_alpha (im : Image) : Image :=
  let alpha := last_band im in
  let matte := new "RGB" (size im) [255; 0; 255]%Z in
  let rgb := composite (convert "RGB" im) matte alpha in
  let p := convert_P_adaptive 255 FLOYDSTEINBERG rgb in
  set_info_transparency 255 p.

(** One round of the palette loop (app.py 108-119). *)
Definition process_frame (save_transparency : bool) (im : Image) : Image :=
  if save_transparency && String.eqb (mode im) "RGBA"
  then quantize_keeping_alpha im
  else im.

(** The frames handed to [save]: [processed]. *)
Definition processed_frames (frames : list Image) (save_transparency : bool)
  : option (list Image) :=
  option_map (map (process_frame save_transparency)) (normalize_sizes frames).

Inductive exn : Type :=
| ValueError (msg : string)
| TypeError
| OtherError.

Definition build_gif (frames : list Image) (duration_ms loop disposal : Z)
    (optimize save_transparency : bool) : exn + bytes :=
  match frames with
  | [] => inl (ValueError "No frames to encode.")
  | _ :: _ =>
      match processed_frames frames save_transparency with
      | None => inl (ValueError "height and width must be > 0")
      | Some processed => inr (save_gif processed duration_ms loop disposal optimize)
      end
  end.

(* ================================================================== *)
(** ** Sequence builder and the build request (app.py 183-249) *)

(** [l[i]] for [0 <= i < len(l)]. *)
Definition item {A} (l : list A) (i : Z) : option A :=
  if (i <? 0)%Z then None else nth_error l (Z.to_nat i).

(** A slice bound clipped to the list, as [PySlice_AdjustIndices] does. *)
Definition adjust_index (len step i : Z) : Z :=
  if (i <? 0)%Z then
    let i' := (i + len)%Z in
    if (i' <? 0)%Z then (if (step <? 0)%Z then -1 else 0)%Z else i'
  else if (len <=? i)%Z then (if (step <? 0)%Z then len - 1 else len)%Z
  else i.

Definition slice_length (start stop step : Z) : Z :=
  if (step <? 0)%Z
  then (if (stop <? start)%Z then (start - stop - 1) / (- step) + 1 else 0)%Z
  else (if (start <? stop)%Z then (stop - start - 1) / step + 1 else 0)%Z.

(** [l[start:stop:step]] with integer bounds and a non-zero step. *)
Definition py_slice {A} (l : list A) (start stop step : Z) : list A :=
  let len := Z.of_nat (List.length l) in
  let start' := adjust_index len step start in
  let stop' := adjust_index len step stop in
  flat_map (fun k => match item l (start' + Z.of_nat k * step)%Z with
                     | Some x => [x]
                     | None => []
                     end)
           (seq 0 (Z.to_nat (slice_length start' stop' step))).

(** The boomerang (app.py 218-219). *)
Definition boomerang {A} (reverse_frames : bool) (frames : list A) : list A :=
  if reverse_frames && (1 <? List.length frames)%nat
  then frames ++ py_slice frames (-2) 0 (-1)
  else frames.

(** The options of a build request, as the widgets return them;
    [bg_color] is the picked colour already parsed to a triple. *)
Record Options : Type := mkOptions {
  descending : bool;        (* order.startswith("Descending") *)
  reverse_frames : bool;
  target_width : Z;
  fit_mode : string;
  to_palette : bool;        (* the widget [palette] *)
  dither : bool;
  bg_transparent : bool;
  bg_color : Z * Z * Z;
  fps : Z;
  loop : Z;
  disposal : Z
}.

(** [bg_tuple] (app.py 196-199). *)
Definition bg_tuple (o : Options) : option (Z * Z * Z) :=
  if negb (bg_transparent o) then Some (bg_color o) else None.

(** [target_width or None]. *)
Definition width_or_None (w : Z) : option Z :=
  if (w =? 0)%Z then None else Some w.

(** The call of the loader in the loop (app.py 205-213). *)
Definition load_entry (zf : ZipFile) (o : Options) (n : string) : option Image :=
  load_and_prepare_image zf n (width_or_None (target_width o)) (fit_mode o)
    (bg_tuple o) (to_palette o) (dither o).

(** One round of the loading loop (app.py 203-216): the state is
    [(frames, skipped)]. *)
Definition load_step (zf : ZipFile) (o : Options)
    (st : list Image * list string) (n : string) : list Image * list string :=
  match load_entry zf o n with
  | Some im => (fst st ++ [im], snd st)
  | None => (fst st, snd st ++ [n])
  end.

Definition load_frames (zf : ZipFile) (o : Options) (names : list string)
  : list Image * list string :=
  fold_left (load_step zf o) names ([], []).

(** [max(1, round(1000 / fps))]. *)
Definition duration_of (fps : Z) : Z := Z.max 1 (py_round_div 1000 fps).

(** The safety guard (app.py 224-226): the warning is shown. *)
Definition total_pixels (frames : list Image) : Z :=
  fold_right (fun f acc => fst (size f) * snd (size f) + acc)%Z 0%Z frames.

Definition very_large (frames : list Image) : bool :=
  (200000000 <? total_pixels frames)%Z.

(** What a build request ends in. *)
Inductive outcome : Type :=
| NoImages                                         (* st.error, app.py 191 *)
| Raised (e : exn) (skipped : list string)         (* st.exception, app.py 249 *)
| Built (gif : bytes) (n_frames : nat) (skipped : list string) (warned : bool).

Definition make_gif (zf : ZipFile) (o : Options) : outcome :=
  match list_images_in_zip zf with
  | [] => NoImages
  | names =>
      match sort_names (descending o) names with
      | None => Raised TypeError []
      | Some names' =>
          let '(frames, skipped) := load_frames zf o names' in
          let frames' := boomerang (reverse_frames o) frames in
          match build_gif frames' (duration_of (fps o)) (loop o) (disposal o)
                          true (bg_transparent o) with
          | inl e => Raised e skipped
          | inr gif => Built gif (List.length frames') skipped (very_large frames')
          end
      end
  end.

End PillowOps.

(* ================================================================== *)
(** ** Vocabulary of the statements *)

(** Characters come in two classes, digits ([true]) and the others
    ([false]). Every character of [s] is of class [b]. *)
Fixpoint all_class (b : bool) (s : string) : bool :=
  match s with
  | EmptyString => true
  | String c s' => Bool.eqb (is_digit c) b && all_class b s'
  end.

(** [s] holds no digit. *)
Definition no_digit (s : string) : bool := all_class false s.

(** The first character of [s] is of class [b]. *)
Definition starts_with_class (b : bool) (s : string) : bool :=
  match s with
  | EmptyString => false
  | String c _ => Bool.eqb (is_digit c) b
  end.

Definition starts_with_digit (s : string) : bool := starts_with_class true s.

(** The last character of [s] is of class [b]. *)
Fixpoint ends_with_class (b : bool) (s : string) : bool :=
  match s with
  | EmptyString => false
  | String c EmptyString => Bool.eqb (is_digit c) b
  | String _ s' => ends_with_class b s'
  end.

(** No run goes on from the end of [p] into [t]. *)
Definition run_boundary (p t : string) : Prop :=
  forall b, ends_with_class b p = true -> starts_with_class b t = false.

(** Python [==] on keys. *)
Fixpoint key_eqb (a b : list token) : bool :=
  match a, b with
  | [], [] => true
  | x :: a', y :: b' => token_eqb x y && key_eqb a' b'
  | _, _ => false
  end.

(** Neighbours in a list of runs start in different classes. *)
Fixpoint runs_alternate (l : list string) : Prop :=
  match l with
  | r1 :: ((r2 :: _) as l') =>
      (exists b, starts_with_class b r1 = true /\ starts_with_class (negb b) r2 = true)
      /\ runs_alternate l'
  | _ => True
  end.

(** The character [c] occurs in [s]. *)
Fixpoint has_char (c : ascii) (s : string) : bool :=
  match s with
  | EmptyString => false
  | String x s' => Ascii.eqb x c || has_char c s'
  end.

(** The entry lies under a directory named [__MACOSX]. *)
Definition under_macosx (name : string) : Prop :=
  (exists rest, name = ("__MACOSX/" ++ rest)%string) \/
  (exists pre rest, name = (pre ++ "/__MACOSX/" ++ rest)%string).

(** The base name, what follows the last "/", begins with a dot. *)
Definition hidden_base (name : string) : Prop :=
  exists dir rest,
    name = (dir ++ "." ++ rest)%string /\
    (dir = "" \/ exists d, dir = (d ++ "/")%string) /\
    has_char "/" rest = false.

(** The entry is a directory. *)
Definition directory_entry (name : string) : Prop :=
  exists d, name = (d ++ "/")%string.

(** [e] is the extension of the entry: what follows its last dot, in its
    base name. *)
Definition extension_of (name e : string) : Prop :=
  exists stem,
    name = (stem ++ "." ++ e)%string /\ has_char "." e = false /\ has_char "/" e = false.

(** The supported extensions, without their dot. *)
Definition IMAGE_EXTENSIONS : list string :=
  ["png"; "jpg"; "jpeg"; "bmp"; "gif"; "tif"; "tiff"; "webp"].

(** The frames an entry contributes, and whether it is skipped. *)
Definition frames_of `{Pillow} (zf : ZipFile) (o : Options) (n : string) : list Image :=
  match load_entry zf o n with
  | Some im => [im]
  | None => []
  end.

Definition is_skipped `{Pillow} (zf : ZipFile) (o : Options) (n : string) : bool :=
  match load_entry zf o n with
  | Some _ => false
  | None => true
  end.

(** A small codec on which the pipeline can be run: an entry of at least
    three bytes decodes to an image whose mode, width and height these
    bytes give; every pixel of a resampled image is the first pixel of the
    source; the palette of a quantised image is its first colour. *)
Definition toy_decode (b : bytes) : option Image :=
  match b with
  | tag :: w :: h :: _ =>
      let w := Z.of_N (Byte.to_N w) in
      let h := Z.of_N (Byte.to_N h) in
      let rgba := negb (Byte.to_N tag =? 0)%N in
      Some {| mode := if rgba then "RGBA" else "RGB";
              size := (w, h);
              data := repeat (if rgba then [10; 20; 30; 0] else [10; 20; 30])%Z
                             (Z.to_nat (w * h));
              palette := [];
              info_transparency := None |}
  | _ => None
  end.

Definition toy_convert_data (m : string) (im : Image) : list Pixel :=
  let rgb p := [nth 0 p 0; nth 1 p 0; nth 2 p 0]%Z in
  if String.eqb m "RGB" then map rgb (data im)
  else if String.eqb m "RGBA" then map (fun p => rgb p ++ [nth 3 p 255%Z]) (data im)
  else data im.

Definition toy_pillow : Pillow := {|
  decode := toy_decode;
  convert_data := toy_convert_data;
  convert_palette := fun _ im => palette im;
  convert_info := fun _ im => info_transparency im;
  resample := fun _ im sz => repeat (hd [] (data im)) (Z.to_nat (fst sz * snd sz));
  quantize := fun _ _ im => ([hd [0; 0; 0]%Z (data im)], map (fun _ => 0%Z) (data im));
  over := fun dst src => if (last src 0 =? 0)%Z then dst else src;
  save_gif := fun frames _ _ _ _ => map (fun _ => Byte.x47) frames
|}.

(** An archive of three images that load, named so that the natural order
    differs from the order of the characters. *)
Definition numbered_archive : ZipFile :=
  [("f10.png", [Byte.x00; Byte.x01; Byte.x01]);
   ("f1.png", [Byte.x00; Byte.x01; Byte.x01]);
   ("notes.txt", [Byte.x68; Byte.x69]);
   ("f2.png", [Byte.x00; Byte.x01; Byte.x01])].

(** An archive of three entries, the second of which does not decode, and
    the options of a plain request. *)
Definition toy_archive : ZipFile :=
  [("a.png", [Byte.x01; Byte.x02; Byte.x01]);
   ("b.png", []);
   ("c.png", [Byte.x00; Byte.x01; Byte.x01])].

Definition toy_options : Options :=
  {| descending := false; reverse_frames := false; target_width := 0;
     fit_mode := "fit"; to_palette := false; dither := false;
     bg_transparent := false; bg_color := (255, 255, 255)%Z;
     fps := 10; loop := 0; disposal := 2 |}.

(** An "RGB" image has three bands. *)
Definition rgb_has_three_bands `{Pillow} : Prop :=
  forall im, Forall (fun p => List.length p = 3%nat) (convert_data "RGB" im).

(** The matte colour of the transparency-preserving quantiser. *)
Definition MAGENTA : Pixel := [255; 0; 255]%Z.

(** The buffer handed to the quantiser (app.py 110-113). *)
Definition matte_composite `{Pillow} (im : Image) : Image :=
  composite (convert "RGB" im) (new "RGB" (size im) MAGENTA) (last_band im).

(** A frame of one fully transparent pixel. *)
Definition transparent_frame : Image :=
  {| mode := "RGBA"; size := (1, 1)%Z; data := [[0; 0; 0; 0]%Z];
     palette := []; info_transparency := None |}.

(** One round of the size loop (app.py 103-105): [im'] is what the loop
    appends for the frame [im]. *)
Definition resized_to `{Pillow} (sz : Z * Z) (im im' : Image) : Prop :=
  (size im = sz /\ im' = im) \/
  (size im <> sz /\ resize im sz LANCZOS = Some im').

(** [r] is an integer nearest to the quotient [n / d]. *)
Definition nearest_to (r n d : Z) : Prop :=
  (- d <= 2 * d * r - 2 * n <= d)%Z.

(** A source image of two columns and four rows, without alpha. *)
Definition tall_frame : Image :=
  {| mode := "RGB"; size := (2, 4)%Z; data := repeat [9; 9; 9]%Z 8;
     palette := []; info_transparency := None |}.

(** [x] is strictly below [y], both of one type. *)
Definition token_below (x y : token) : Prop :=
  token_lt x y = Some true /\ token_lt y x = Some false /\ token_eqb x y = false.

(** [a] is not above [b]: the comparison [b < a] answers no. *)
Definition key_le (a b : list token) : Prop := key_lt b a = Some false.

(** Case analysis on the integer tests of a goal. *)
Ltac ztests :=
  repeat match goal with
         | |- context [(?x <? ?y)%Z] => destruct (Z.ltb_spec x y)
         | |- context [(?x <=? ?y)%Z] => destruct (Z.leb_spec x y)
         | |- context [(?x =? ?y)%Z] => destruct (Z.eqb_spec x y)
         end.

(** The name of the frame numbered [d] in a sequence with the prefix [p]
    and the suffix [s]. *)
Definition numbered (p s d : string) : string := (p ++ d ++ s)%string.

(** [n] characters "0". *)
Fixpoint zeros (n : nat) : string :=
  match n with
  | O => EmptyString
  | S n' => String "0" (zeros n')
  end.

(** The element of a key is an [int]. *)
Definition is_int (t : token) : bool :=
  match t with
  | TInt _ => true
  | TStr _ => false
  end.

(** The elements of a key are in turn [int] and [str]. *)
Fixpoint types_alternate (k : list token) : Prop :=
  match k with
  | t1 :: ((t2 :: _) as k') => is_int t1 = negb (is_int t2) /\ types_alternate k'
  | _ => True
  end.

(** Decoders return no empty image. *)
Definition decode_nonempty `{Pillow} : Prop :=
  forall fp im, decode fp = Some im ->
                (1 <= fst (size im))%Z /\ (1 <= snd (size im))%Z.

(** An archive of one image, twenty times as wide as it is high. *)
Definition strip_archive : ZipFile :=
  [("strip.png", [Byte.x00; Byte.x14; Byte.x01])].

(** The small codec with a decoder that refuses empty images. *)
Definition strict_decode (b : bytes) : option Image :=
  match toy_decode b with
  | Some im =>
      if (1 <=? fst (size im))%Z && (1 <=? snd (size im))%Z then Some im else None
  | None => None
  end.

Definition strict_pillow : Pillow := {|
  decode := strict_decode;
  convert_data := toy_convert_data;
  convert_palette := fun _ im => palette im;
  convert_info := fun _ im => info_transparency im;
  resample := fun _ im sz => repeat (hd [] (data im)) (Z.to_nat (fst sz * snd sz));
  quantize := fun _ _ im => ([hd [0; 0; 0]%Z (data im)], map (fun _ => 0%Z) (data im));
  over := fun dst src => if (last src 0 =? 0)%Z then dst else src;
  save_gif := fun frames _ _ _ _ => map (fun _ => Byte.x47) frames
|}.

(** [v] lies between [x] and [y]. *)
Definition between (v x y : Z) : Prop := (Z.min x y <= v <= Z.max x y)%Z.

(** A band value fits a byte. *)
Definition is_byte (v : Z) : Prop := (0 <= v <= 255)%Z.

(** The frame rates of the slider. *)
Definition SLIDER_FPS : list Z := map Z.of_nat (seq 1 30).

(** A frame of one half-transparent, one opaque and one transparent pixel. *)
Definition mixed_alpha_frame : Image :=
  {| mode := "RGBA"; size := (3, 1)%Z;
     data := [[0; 0; 0; 128]; [10; 200; 30; 255]; [10; 200; 30; 0]]%Z;
     palette := []; info_transparency := None |}.

(** The number of frames handed to the encoder when [m] frames were
    loaded. *)
Definition frames_shown (reverse_frames : bool) (m : nat) : nat :=
  if reverse_frames && (1 <? m)%nat then (2 * m - 2)%nat else m.

(* ================================================================== *)
(** * Properties *)

(** ** Characters and strings *)

Lemma is_digit_lower c : is_digit (lower_char c) = is_digit c.
Proof. destruct c as [[] [] [] [] [] [] [] []]; reflexivity. Qed.

Lemma lower_char_idem c : lower_char (lower_char c) = lower_char c.
Proof. destruct c as [[] [] [] [] [] [] [] []]; reflexivity. Qed.

Lemma lower_char_digit c : is_digit c = true -> lower_char c = c.
Proof. destruct c as [[] [] [] [] [] [] [] []]; simpl; intro E; try reflexivity; discriminate E. Qed.

Lemma str_lower_idem s : str_lower (str_lower s) = str_lower s.
Proof. induction s as [|c s IH]; simpl; [reflexivity|]. now rewrite lower_char_idem, IH. Qed.

Lemma str_lower_digits s : all_digits s = true -> str_lower s = s.
Proof.
  induction s as [|c s IH]; simpl; [reflexivity|].
  intro E. apply andb_prop in E as [Ec Es].
  now rewrite (lower_char_digit c Ec), (IH Es).
Qed.

Lemma all_digits_lower s : all_digits (str_lower s) = all_digits s.
Proof. induction s as [|c s IH]; simpl; [reflexivity|]. now rewrite is_digit_lower, IH. Qed.

Lemma str_isdigit_lower s : str_isdigit (str_lower s) = str_isdigit s.
Proof. destruct s as [|c s]; [reflexivity|]. apply (all_digits_lower (String c s)). Qed.

Lemma token_of_lower s : token_of (str_lower s) = token_of s.
Proof.
  unfold token_of. rewrite str_isdigit_lower.
  destruct (str_isdigit s) eqn:E.
  - destruct s as [|c s]; [discriminate|]. now rewrite str_lower_digits.
  - now rewrite str_lower_idem.
Qed.

(** The first run starts with the first character. *)
Lemma runs_head c s :
  exists r rest, re_findall_runs (String c s) = String c r :: rest.
Proof.
  simpl. destruct (re_findall_runs s) as [|[|d r] rest]; eauto.
  destruct (Bool.eqb (is_digit c) (is_digit d)); eauto.
Qed.

Lemma runs_lower s :
  re_findall_runs (str_lower s) = map str_lower (re_findall_runs s).
Proof.
  induction s as [|c s IH]; [reflexivity|].
  simpl. rewrite IH.
  destruct (re_findall_runs s) as [|[|d r] rest]; simpl; try reflexivity.
  rewrite !is_digit_lower.
  destruct (Bool.eqb (is_digit c) (is_digit d)); reflexivity.
Qed.

Lemma natural_key_lower s : natural_key (str_lower s) = natural_key s.
Proof.
  unfold natural_key. rewrite runs_lower, map_map.
  apply map_ext. intro r. apply token_of_lower.
Qed.

(** *** [String.ltb] is a strict total order *)

Lemma str_compare_refl s : String.compare s s = Eq.
Proof.
  induction s as [|c s IH]; simpl; [reflexivity|].
  unfold Ascii.compare. now rewrite N.compare_refl.
Qed.

Lemma str_compare_trans a : forall b c,
  String.compare a b = Lt -> String.compare b c = Lt -> String.compare a c = Lt.
Proof.
  induction a as [|x a IH]; intros [|y b] [|z c]; simpl; try discriminate; auto.
  unfold Ascii.compare.
  destruct (N.compare_spec (N_of_ascii x) (N_of_ascii y)) as [Exy|Lxy|Gxy];
    destruct (N.compare_spec (N_of_ascii y) (N_of_ascii z)) as [Eyz|Lyz|Gyz];
    try discriminate; intros H1 H2.
  - rewrite Exy, Eyz, N.compare_refl. eauto.
  - rewrite Exy. now apply N.compare_lt_iff in Lyz as ->.
  - rewrite <- Eyz. now apply N.compare_lt_iff in Lxy as ->.
  - assert (L : (N_of_ascii x < N_of_ascii z)%N) by lia.
    now apply N.compare_lt_iff in L as ->.
Qed.

Lemma ltb_irrefl s : String.ltb s s = false.
Proof. unfold String.ltb. now rewrite str_compare_refl. Qed.

Lemma ltb_asym a b : String.ltb a b = true -> String.ltb b a = false.
Proof.
  unfold String.ltb. rewrite (String.compare_antisym a b).
  destruct (String.compare b a); simpl; congruence.
Qed.

Lemma ltb_trans a b c :
  String.ltb a b = true -> String.ltb b c = true -> String.ltb a c = true.
Proof.
  unfold String.ltb. intros H1 H2.
  destruct (String.compare a b) eqn:E1; try discriminate.
  destruct (String.compare b c) eqn:E2; try discriminate.
  now rewrite (str_compare_trans _ _ _ E1 E2).
Qed.

Lemma ltb_total a b : a <> b -> String.ltb b a = false -> String.ltb a b = true.
Proof.
  unfold String.ltb. intros N. rewrite (String.compare_antisym a b).
  destruct (String.compare b a) eqn:E; simpl; try congruence.
  apply String.compare_eq_iff in E. congruence.
Qed.

(** *** The order of keys *)

Lemma token_eqb_eq a b : token_eqb a b = true <-> a = b.
Proof.
  destruct a as [x|x], b as [y|y]; simpl; split; try discriminate.
  - intros E%Z.eqb_eq. now subst.
  - intros [= ->]. apply Z.eqb_refl.
  - intros E%String.eqb_eq. now subst.
  - intros [= ->]. apply String.eqb_refl.
Qed.

Lemma token_eqb_refl a : token_eqb a a = true.
Proof. now apply token_eqb_eq. Qed.

Lemma token_eqb_sym a b : token_eqb a b = token_eqb b a.
Proof.
  destruct (token_eqb a b) eqn:E.
  - apply token_eqb_eq in E as ->. now rewrite token_eqb_refl.
  - destruct (token_eqb b a) eqn:E'; [|reflexivity].
    apply token_eqb_eq in E' as ->. now rewrite token_eqb_refl in E.
Qed.

Lemma token_below_of_not_lt x y :
  token_eqb y x = false -> token_lt y x = Some false -> token_below x y.
Proof.
  destruct x as [a|a], y as [b|b]; simpl; try discriminate; intros E [= L]; unfold token_below; simpl.
  - apply Z.eqb_neq in E. apply Z.ltb_ge in L.
    repeat split; f_equal; [apply Z.ltb_lt|apply Z.ltb_ge|apply Z.eqb_neq]; lia.
  - apply String.eqb_neq in E.
    assert (T : String.ltb a b = true) by (apply ltb_total; congruence).
    rewrite T, L. repeat split. apply String.eqb_neq. congruence.
Qed.

Lemma token_below_of_lt x y : token_lt x y = Some true -> token_below x y.
Proof.
  destruct x as [a|a], y as [b|b]; simpl; try discriminate; intros [= L]; unfold token_below; simpl.
  - apply Z.ltb_lt in L.
    repeat split; f_equal; [apply Z.ltb_lt|apply Z.ltb_ge|apply Z.eqb_neq]; lia.
  - rewrite L, (ltb_asym _ _ L). repeat split.
    apply String.eqb_neq. intros ->. now rewrite ltb_irrefl in L.
Qed.

Lemma token_below_trans x y z : token_below x y -> token_below y z -> token_below x z.
Proof.
  intros [H1 _] [H2 _]. apply token_below_of_lt.
  destruct x as [a|a], y as [b|b], z as [c|c]; simpl in *; try discriminate;
    injection H1 as H1; injection H2 as H2; f_equal.
  - apply Z.ltb_lt in H1, H2. apply Z.ltb_lt. lia.
  - eapply ltb_trans; eauto.
Qed.

Lemma key_lt_irrefl k : key_lt k k = Some false.
Proof. induction k as [|x k IH]; simpl; [reflexivity|]. now rewrite token_eqb_refl. Qed.

Lemma key_lt_asym a : forall b, key_lt a b = Some true -> key_lt b a = Some false.
Proof.
  induction a as [|x a IH]; intros [|y b]; simpl; try discriminate; auto.
  rewrite (token_eqb_sym y x).
  destruct (token_eqb x y); [apply IH|].
  intros L. now apply token_below_of_lt in L as (_ & L' & _).
Qed.

Lemma key_le_trans a : forall b c, key_le a b -> key_le b c -> key_le a c.
Proof.
  unfold key_le.
  induction a as [|x a IH]; intros [|y b] [|z c]; simpl; try discriminate; auto.
  destruct (token_eqb y x) eqn:Eyx; destruct (token_eqb z y) eqn:Ezy.
  - apply token_eqb_eq in Eyx as ->. apply token_eqb_eq in Ezy as ->.
    rewrite token_eqb_refl. apply IH.
  - apply token_eqb_eq in Eyx as ->. now rewrite Ezy.
  - apply token_eqb_eq in Ezy as ->. now rewrite Eyx.
  - intros H1 H2.
    pose proof (token_below_trans _ _ _ (token_below_of_not_lt _ _ Eyx H1)
                  (token_below_of_not_lt _ _ Ezy H2)) as (_ & L & E).
    now rewrite token_eqb_sym, E.
Qed.

Lemma key_le_antisym a : forall b, key_le a b -> key_le b a -> a = b.
Proof.
  unfold key_le.
  induction a as [|x a IH]; intros [|y b]; simpl; try discriminate; auto.
  rewrite (token_eqb_sym y x).
  destruct (token_eqb x y) eqn:E.
  - apply token_eqb_eq in E as ->. intros H1 H2. f_equal. now apply IH.
  - intros H1 H2. rewrite token_eqb_sym in E.
    apply (token_below_of_not_lt _ _ E) in H1 as (L & _). congruence.
Qed.

(** ** The sort *)

Section SortFacts.
Context {A K : Type}.
Variable key : A -> K.
Variable lt : K -> K -> option bool.

Hypothesis lt_irrefl : forall k, lt k k = Some false.
Hypothesis lt_asym : forall a b, lt a b = Some true -> lt b a = Some false.
Hypothesis le_trans : forall a b c,
  lt b a = Some false -> lt c b = Some false -> lt c a = Some false.

(** [a] may stand before [b] in an ascending list. *)
Let ordered (a b : A) : Prop := lt (key b) (key a) = Some false.

Lemma insert_sorted_perm x : forall l l',
  insert_sorted key lt x l = Some l' -> Permutation (x :: l) l'.
Proof.
  induction l as [|y l IH]; simpl; intros l' E.
  - injection E as <-. apply Permutation_refl.
  - destruct (lt (key y) (key x)) as [[|]|]; try discriminate.
    + destruct (insert_sorted key lt x l) as [r|]; try discriminate.
      injection E as <-.
      eapply perm_trans; [apply perm_swap|]. apply perm_skip. now apply IH.
    + injection E as <-. apply Permutation_refl.
Qed.

Lemma sort_asc_perm : forall l s, sort_asc key lt l = Some s -> Permutation l s.
Proof.
  induction l as [|x l IH]; simpl; intros s E.
  - injection E as <-. constructor.
  - destruct (sort_asc key lt l) as [r|]; try discriminate.
    eapply perm_trans; [apply perm_skip, IH; reflexivity|].
    now apply insert_sorted_perm.
Qed.

Lemma insert_sorted_ordered x : forall l l',
  StronglySorted ordered l ->
  insert_sorted key lt x l = Some l' -> StronglySorted ordered l'.
Proof.
  induction l as [|y l IH]; simpl; intros l' S E.
  - injection E as <-. repeat constructor.
  - apply StronglySorted_inv in S as [S F].
    destruct (lt (key y) (key x)) as [[|]|] eqn:L; try discriminate.
    + destruct (insert_sorted key lt x l) as [r|] eqn:I; try discriminate.
      injection E as <-. constructor; [now apply IH|].
      apply (Permutation_Forall (insert_sorted_perm _ _ _ I)).
      constructor; [|exact F]. now apply lt_asym.
    + injection E as <-. constructor; [now constructor|].
      constructor; [exact L|].
      eapply Forall_impl; [|exact F]. intros z Hz. exact (le_trans _ _ _ L Hz).
Qed.

Lemma sort_asc_ordered : forall l s,
  sort_asc key lt l = Some s -> StronglySorted ordered s.
Proof.
  induction l as [|x l IH]; simpl; intros s E.
  - injection E as <-. constructor.
  - destruct (sort_asc key lt l) as [r|]; try discriminate.
    eapply insert_sorted_ordered; [|exact E]. now apply IH.
Qed.

(** Stability: the elements selected by a predicate that never holds of two
    elements of which one is below the other keep their order. *)
Variable P : A -> bool.
Hypothesis P_class : forall a b,
  P a = true -> P b = true -> lt (key a) (key b) <> Some true.

Lemma insert_sorted_filter x : forall l l',
  insert_sorted key lt x l = Some l' -> filter P l' = filter P (x :: l).
Proof.
  induction l as [|y l IH]; simpl; intros l' E.
  - now injection E as <-.
  - destruct (lt (key y) (key x)) as [[|]|] eqn:L; try discriminate.
    + destruct (insert_sorted key lt x l) as [r|] eqn:I; try discriminate.
      injection E as <-. simpl. rewrite (IH _ eq_refl). simpl.
      destruct (P y) eqn:Py, (P x) eqn:Px; try reflexivity.
      exfalso. exact (P_class y x Py Px L).
    + now injection E as <-.
Qed.

Lemma sort_asc_filter : forall l s,
  sort_asc key lt l = Some s -> filter P s = filter P l.
Proof.
  induction l as [|x l IH]; simpl; intros s E.
  - now injection E as <-.
  - destruct (sort_asc key lt l) as [r|]; try discriminate.
    rewrite (insert_sorted_filter _ _ _ E). simpl. now rewrite (IH _ eq_refl).
Qed.

(** The sort returns when every comparison it may ask answers. *)
Lemma insert_sorted_total x : forall l,
  (forall y, In y l -> lt (key y) (key x) <> None) ->
  exists l', insert_sorted key lt x l = Some l'.
Proof.
  induction l as [|y l IH]; simpl; intros C; [eauto|].
  destruct (lt (key y) (key x)) as [[|]|] eqn:L; eauto.
  - destruct IH as [r ->]; [auto|]. simpl. eauto.
  - exfalso. apply (C y); auto.
Qed.

Lemma sort_asc_total : forall l,
  (forall a b, In a l -> In b l -> lt (key a) (key b) <> None) ->
  exists s, sort_asc key lt l = Some s.
Proof.
  induction l as [|x l IH]; simpl; intros C; [eauto|].
  destruct IH as [r E]; [auto|]. rewrite E.
  apply insert_sorted_total. intros y Hy. apply C; [right|now left].
  eapply Permutation_in; [apply Permutation_sym, sort_asc_perm; exact E|exact Hy].
Qed.

End SortFacts.

Lemma StronglySorted_snoc {A} (R : A -> A -> Prop) l x :
  StronglySorted R l -> Forall (fun y => R y x) l -> StronglySorted R (l ++ [x]).
Proof.
  induction 1 as [|y l S IH F]; simpl; intros Fx.
  - repeat constructor.
  - apply Forall_cons_iff in Fx as [Ryx Fx].
    constructor; [now apply IH|].
    apply Forall_app. split; [exact F|now constructor].
Qed.

Lemma StronglySorted_rev {A} (R : A -> A -> Prop) l :
  StronglySorted R l -> StronglySorted (fun a b => R b a) (rev l).
Proof.
  induction 1 as [|x l S IH F]; simpl; [constructor|].
  apply StronglySorted_snoc; [exact IH|]. now apply Forall_rev.
Qed.

Lemma filter_rev_comm {A} (f : A -> bool) l : filter f (rev l) = rev (filter f l).
Proof.
  induction l as [|x l IH]; simpl; [reflexivity|].
  rewrite filter_app, IH. simpl. destruct (f x); simpl; [reflexivity|apply app_nil_r].
Qed.

(** ** Runs and keys *)

Lemma runs_step c s :
  re_findall_runs (String c s) =
  match re_findall_runs s with
  | String d r :: rest =>
      if Bool.eqb (is_digit c) (is_digit d)
      then String c (String d r) :: rest
      else String c EmptyString :: String d r :: rest
  | _ => [String c EmptyString]
  end.
Proof. reflexivity. Qed.

Lemma append_empty_r s : (s ++ "")%string = s.
Proof. induction s as [|c s IH]; simpl; congruence. Qed.

Lemma append_assoc a b c : ((a ++ b) ++ c)%string = (a ++ (b ++ c))%string.
Proof. induction a as [|x a IH]; simpl; congruence. Qed.

Lemma all_class_digits s : all_class true s = all_digits s.
Proof.
  induction s as [|c s IH]; simpl; [reflexivity|].
  rewrite IH. now destruct (is_digit c).
Qed.

(** A run followed by a string that does not go on in the same class is
    the first run found. *)
Lemma runs_run_app b r : forall s,
  r <> "" -> all_class b r = true -> starts_with_class b s = false ->
  re_findall_runs (r ++ s) = r :: re_findall_runs s.
Proof.
  induction r as [|c r IH]; intros s NE C S; [congruence|].
  simpl in C. apply andb_prop in C as [Cc Cr]. apply Bool.eqb_prop in Cc.
  change (String c r ++ s)%string with (String c (r ++ s)%string).
  rewrite runs_step.
  destruct r as [|c' r].
  - simpl (""%string ++ s)%string.
    destruct s as [|e s]; [reflexivity|].
    destruct (runs_head e s) as (r' & rest & ->).
    simpl in S. rewrite Cc.
    destruct (is_digit e), b; simpl in *; congruence.
  - rewrite IH by (auto; congruence).
    simpl in Cr. apply andb_prop in Cr as [Cc' _]. apply Bool.eqb_prop in Cc'.
    rewrite Cc, Cc'. now rewrite Bool.eqb_reflx.
Qed.

Lemma runs_single b r :
  r <> "" -> all_class b r = true -> re_findall_runs r = [r].
Proof.
  intros NE C. rewrite <- (append_empty_r r) at 1.
  now rewrite (runs_run_app b r "" NE C eq_refl).
Qed.

Lemma str_isdigit_run d : str_isdigit d = true -> d <> "" /\ all_class true d = true.
Proof.
  destruct d as [|c d]; [discriminate|]. intros E. split; [discriminate|].
  now rewrite all_class_digits.
Qed.

Lemma token_of_digits d : str_isdigit d = true -> token_of d = TInt (int_of_str d).
Proof. unfold token_of. now intros ->. Qed.

Lemma token_of_text p : p <> "" -> no_digit p = true -> token_of p = TStr (str_lower p).
Proof.
  unfold token_of, no_digit. destruct p as [|c p]; [congruence|]. intros _ C.
  simpl in *. apply andb_prop in C as [Cc _]. apply Bool.eqb_prop in Cc.
  now rewrite Cc.
Qed.

Lemma natural_key_digits_app d s :
  str_isdigit d = true -> starts_with_digit s = false ->
  natural_key (d ++ s) = TInt (int_of_str d) :: natural_key s.
Proof.
  intros D S. destruct (str_isdigit_run d D) as [NE C].
  unfold natural_key. rewrite (runs_run_app true d s NE C S). simpl.
  now rewrite token_of_digits.
Qed.

Lemma natural_key_text_app p s :
  p <> "" -> no_digit p = true -> starts_with_class false s = false ->
  natural_key (p ++ s) = TStr (str_lower p) :: natural_key s.
Proof.
  intros NE C S.
  unfold natural_key. rewrite (runs_run_app false p s NE C S). simpl.
  now rewrite token_of_text.
Qed.

Lemma natural_key_text p :
  p <> "" -> no_digit p = true -> natural_key p = [TStr (str_lower p)].
Proof.
  intros NE C. unfold natural_key. rewrite (runs_single false p NE C). simpl.
  now rewrite token_of_text.
Qed.

Lemma key_lt_cons_same t a b : key_lt (t :: a) (t :: b) = key_lt a b.
Proof. simpl. now rewrite token_eqb_refl. Qed.

(** A string cut between two runs is tokenised piece by piece. *)
Lemma runs_app p : forall t,
  run_boundary p t ->
  re_findall_runs (p ++ t) = re_findall_runs p ++ re_findall_runs t.
Proof.
  induction p as [|c p IH]; intros t B; [reflexivity|].
  change (String c p ++ t)%string with (String c (p ++ t)%string).
  rewrite (runs_step c (p ++ t)), (runs_step c p).
  destruct p as [|c' p].
  - simpl (""%string ++ t)%string. simpl (re_findall_runs "").
    destruct t as [|e t]; [reflexivity|].
    destruct (runs_head e t) as (r & rest & ->).
    specialize (B (is_digit c)). simpl in B. rewrite Bool.eqb_reflx in B.
    specialize (B eq_refl).
    replace (Bool.eqb (is_digit c) (is_digit e)) with false; [reflexivity|].
    now destruct (is_digit c), (is_digit e).
  - rewrite IH by (intros b E; apply B; exact E).
    destruct (runs_head c' p) as (r & rest & ->). simpl.
    destruct (Bool.eqb (is_digit c) (is_digit c')); reflexivity.
Qed.

Lemma natural_key_app p t :
  run_boundary p t -> natural_key (p ++ t) = natural_key p ++ natural_key t.
Proof. intros B. unfold natural_key. now rewrite runs_app, map_app. Qed.

Lemma key_lt_app_same k : forall a b, key_lt (k ++ a) (k ++ b) = key_lt a b.
Proof.
  induction k as [|t k IH]; intros a b; [reflexivity|].
  simpl. now rewrite token_eqb_refl.
Qed.

Lemma run_boundary_digits p d s :
  ends_with_class true p = false -> str_isdigit d = true ->
  run_boundary p (d ++ s).
Proof.
  intros E D b Eb. destruct d as [|c d]; [discriminate|].
  simpl in D. apply andb_prop in D as [Dc _]. simpl. rewrite Dc.
  destruct b; [congruence|reflexivity].
Qed.

Lemma run_boundary_text p t s :
  ends_with_class false p = false -> t <> "" -> no_digit t = true ->
  run_boundary p (t ++ s).
Proof.
  intros E NE T b Eb. destruct t as [|c t]; [congruence|].
  unfold no_digit in T. simpl in T. apply andb_prop in T as [Tc _].
  apply Bool.eqb_prop in Tc. simpl. rewrite Tc.
  destruct b; [reflexivity|congruence].
Qed.

(** Digit runs are compared by value. *)
Lemma key_lt_digit_runs p d1 d2 s1 s2 :
  ends_with_class true p = false ->
  str_isdigit d1 = true -> str_isdigit d2 = true ->
  starts_with_digit s1 = false -> starts_with_digit s2 = false ->
  key_lt (natural_key (p ++ d1 ++ s1)) (natural_key (p ++ d2 ++ s2)) =
  if (int_of_str d1 =? int_of_str d2)%Z
  then key_lt (natural_key s1) (natural_key s2)
  else Some (int_of_str d1 <? int_of_str d2)%Z.
Proof.
  intros P D1 D2 S1 S2.
  rewrite (natural_key_app p (d1 ++ s1)), (natural_key_app p (d2 ++ s2))
    by now apply run_boundary_digits.
  rewrite key_lt_app_same, !natural_key_digits_app by assumption.
  reflexivity.
Qed.

(** The other runs are compared after lowering. *)
Lemma key_lt_text_runs p t1 t2 s1 s2 :
  ends_with_class false p = false ->
  t1 <> "" -> t2 <> "" -> no_digit t1 = true -> no_digit t2 = true ->
  starts_with_class false s1 = false -> starts_with_class false s2 = false ->
  key_lt (natural_key (p ++ t1 ++ s1)) (natural_key (p ++ t2 ++ s2)) =
  if String.eqb (str_lower t1) (str_lower t2)
  then key_lt (natural_key s1) (natural_key s2)
  else Some (String.ltb (str_lower t1) (str_lower t2)).
Proof.
  intros P N1 N2 T1 T2 S1 S2.
  rewrite (natural_key_app p (t1 ++ s1)), (natural_key_app p (t2 ++ s2))
    by now apply run_boundary_text.
  rewrite key_lt_app_same, (natural_key_text_app t1 s1), (natural_key_text_app t2 s2)
    by assumption.
  reflexivity.
Qed.

Lemma natural_key_case a b : str_lower a = str_lower b -> natural_key a = natural_key b.
Proof.
  intros E. rewrite <- (natural_key_lower a), <- (natural_key_lower b). now rewrite E.
Qed.

Lemma key_eqb_eq a : forall b, key_eqb a b = true <-> a = b.
Proof.
  induction a as [|x a IH]; intros [|y b]; simpl; split; try discriminate; auto.
  - intros [Ex Ea]%andb_prop. apply token_eqb_eq in Ex. apply IH in Ea. congruence.
  - intros [= -> ->]. rewrite token_eqb_refl. now apply IH.
Qed.

(** The runs found make up the string, none is empty, each is of one
    class, and neighbours are of different classes. *)
Lemma re_findall_runs_spec s :
  String.concat "" (re_findall_runs s) = s /\
  Forall (fun r => exists b, starts_with_class b r = true /\ all_class b r = true)
         (re_findall_runs s) /\
  runs_alternate (re_findall_runs s).
Proof.
  induction s as [|c s (IC & IF & IA)]; [repeat split; constructor|].
  rewrite runs_step.
  destruct (re_findall_runs s) as [|[|d r] rest] eqn:E.
  - simpl in IC. subst s. repeat split; auto.
    constructor; [|constructor]. exists (is_digit c). simpl.
    now rewrite Bool.eqb_reflx.
  - exfalso. apply Forall_inv in IF as (b & S & _). discriminate S.
  - apply Forall_cons_iff in IF as [(b & Sb & Cb) IF].
    destruct (Bool.eqb (is_digit c) (is_digit d)) eqn:Ecd.
    + apply Bool.eqb_prop in Ecd. split; [|split].
      * rewrite <- IC. destruct rest; reflexivity.
      * constructor; [|exact IF]. exists b. simpl in *.
        rewrite Ecd, Sb in *. split; [reflexivity|exact Cb].
      * destruct rest as [|r2 rest]; [exact I|].
        destruct IA as [(b' & S1 & S2) IA]. split; [|exact IA].
        exists b'. simpl in *. rewrite Ecd. auto.
    + split; [|split].
      * rewrite <- IC. reflexivity.
      * constructor; [|constructor; [|exact IF]].
        -- exists (is_digit c). simpl. now rewrite Bool.eqb_reflx.
        -- exists b. simpl in *. auto.
      * split; [|exact IA].
        exists (is_digit c). simpl. rewrite Bool.eqb_reflx. split; [reflexivity|].
        destruct (is_digit c), (is_digit d); simpl in *; congruence.
Qed.

(** A name that starts with a digit has a key that starts with an [int],
    any other non-empty name one that starts with a [str]. *)
Lemma natural_key_head c s :
  exists k, natural_key (String c s) =
            (if is_digit c then TInt (int_of_str (hd EmptyString (re_findall_runs (String c s))))
             else TStr (str_lower (hd EmptyString (re_findall_runs (String c s))))) :: k.
Proof.
  destruct (re_findall_runs_spec (String c s)) as (_ & F & _).
  destruct (runs_head c s) as (r & rest & E).
  unfold natural_key. rewrite E in *. simpl.
  apply Forall_inv in F as (b & Sb & Cb). simpl in Sb, Cb.
  apply Bool.eqb_prop in Sb. subst b.
  exists (map token_of rest). f_equal.
  destruct (is_digit c) eqn:D.
  - apply token_of_digits. change (all_digits (String c r) = true).
    rewrite <- all_class_digits. simpl. rewrite D. exact Cb.
  - apply token_of_text; [discriminate|]. unfold no_digit. simpl. rewrite D. exact Cb.
Qed.

Lemma key_lt_mixed n1 n2 :
  starts_with_digit n1 = true -> starts_with_class false n2 = true ->
  key_lt (natural_key n1) (natural_key n2) = None /\
  key_lt (natural_key n2) (natural_key n1) = None.
Proof.
  destruct n1 as [|c1 s1]; [discriminate|]. destruct n2 as [|c2 s2]; [discriminate|].
  simpl. intros D1%Bool.eqb_prop D2%Bool.eqb_prop.
  destruct (natural_key_head c1 s1) as [k1 ->].
  destruct (natural_key_head c2 s2) as [k2 ->].
  rewrite D1, D2. split; reflexivity.
Qed.

(* ------------------------------------------------------------------ *)
(** ** Natural sort *)



(** C9. Keys that hold an [int] and a [str] at the first position where
    they differ cannot be compared: [<] raises [TypeError]. The names
    "a.png" and "1.png", which both pass the archive filter, have the keys
    ['a.png'] and [1, '.png']; sorting them fails in either direction, and
    the build request ends in the exception without an image. The same
    holds of any name that starts with a digit beside one that does not. *)
Theorem mixed_token_types_abort_the_sort :
  natural_key "a.png" = [TStr "a.png"] /\
  natural_key "1.png" = [TInt 1; TStr ".png"] /\
  _is_valid_zip_image "a.png" = true /\
  _is_valid_zip_image "1.png" = true /\
  key_lt (natural_key "a.png") (natural_key "1.png") = None /\
  key_lt (natural_key "1.png") (natural_key "a.png") = None /\
  (forall reverse, sort_names reverse ["a.png"; "1.png"] = None) /\
  (forall (PIL : Pillow) (b1 b2 : bytes) (o : Options),
      make_gif [("a.png", b1); ("1.png", b2)] o = Raised TypeError []) /\
  (forall reverse n1 n2,
      starts_with_digit n1 = true -> starts_with_class false n2 = true ->
      sort_names reverse [n1; n2] = None /\ sort_names reverse [n2; n1] = None).
Proof.
  repeat (split; [reflexivity|]).
  split; [intros []; reflexivity|].
  split.
  - intros PIL b1 b2 o. unfold make_gif. simpl.
    destruct (descending o); reflexivity.
  - intros reverse n1 n2 D1 D2.
    destruct (key_lt_mixed n1 n2 D1 D2) as [L12 L21].
    unfold sort_names, list_sort. destruct reverse; simpl; rewrite ?L12, ?L21; auto.
Qed.

(* ------------------------------------------------------------------ *)
(** ** Archive filter *)

Lemma prefix_app p s : String.prefix p ((p ++ s)%string) = true.
Proof.
  induction p as [|c p IH]; simpl; [now destruct s|].
  destruct (ascii_dec c c); [exact IH|congruence].
Qed.

Lemma prefix_inv p : forall s, String.prefix p s = true -> exists rest, s = (p ++ rest)%string.
Proof.
  induction p as [|c p IH]; intros s E; [exists s; reflexivity|].
  destruct s as [|x s]; simpl in E; [discriminate|].
  destruct (ascii_dec c x) as [->|]; [|discriminate].
  destruct (IH _ E) as [rest ->]. now exists rest.
Qed.

Lemma str_in_step p s :
  str_in p s =
  String.prefix p s || match s with EmptyString => false | String _ s' => str_in p s' end.
Proof. destruct s; reflexivity. Qed.

Lemma str_in_iff p s :
  str_in p s = true <-> exists pre rest, s = (pre ++ p ++ rest)%string.
Proof.
  split.
  - induction s as [|c s IH]; rewrite str_in_step; intros E.
    + rewrite orb_false_r in E. apply prefix_inv in E as [rest ->]. now exists "", rest.
    + apply orb_prop in E as [E|E].
      * apply prefix_inv in E as [rest E]. now exists "", rest.
      * destruct (IH E) as (pre & rest & ->). now exists (String c pre), rest.
  - intros (pre & rest & ->). induction pre as [|c pre IH].
    + rewrite str_in_step. simpl (""%string ++ _)%string. now rewrite prefix_app.
    + simpl (String c pre ++ _)%string. rewrite str_in_step, IH. apply orb_true_r.
Qed.

Lemma str_endswith_step p s :
  str_endswith p s =
  String.eqb s p || match s with EmptyString => false | String _ s' => str_endswith p s' end.
Proof. destruct s; reflexivity. Qed.

Lemma str_endswith_iff p s :
  str_endswith p s = true <-> exists d, s = (d ++ p)%string.
Proof.
  split.
  - induction s as [|c s IH]; rewrite str_endswith_step; intros E.
    + rewrite orb_false_r in E. apply String.eqb_eq in E as <-. now exists "".
    + apply orb_prop in E as [E|E].
      * apply String.eqb_eq in E as <-. now exists "".
      * destruct (IH E) as (d & ->). now exists (String c d).
  - intros (d & ->). induction d as [|c d IH].
    + rewrite str_endswith_step. simpl (""%string ++ _)%string. now rewrite String.eqb_refl.
    + simpl (String c d ++ _)%string. rewrite str_endswith_step, IH. apply orb_true_r.
Qed.

Lemma has_char_app c a b : has_char c ((a ++ b)%string) = has_char c a || has_char c b.
Proof.
  induction a as [|x a IH]; simpl; [reflexivity|]. now rewrite IH, orb_assoc.
Qed.

Lemma str_in_char c s : str_in (String c "") s = has_char c s.
Proof.
  induction s as [|x s IH]; simpl; [reflexivity|]. rewrite IH.
  destruct (ascii_dec c x) as [->|N].
  - rewrite Ascii.eqb_refl. now destruct s.
  - apply Ascii.eqb_neq in N. rewrite Ascii.eqb_sym, N. reflexivity.
Qed.

Lemma rpartition_none c s : rpartition c s = None <-> has_char c s = false.
Proof.
  induction s as [|x s IH]; simpl; [tauto|].
  destruct (rpartition c s) as [[h t]|].
  - split; [discriminate|]. intros E. apply orb_false_elim in E as [_ E].
    apply IH in E. discriminate.
  - destruct (Ascii.eqb x c); simpl; [split; discriminate|]. tauto.
Qed.

Lemma rpartition_some c s h t :
  rpartition c s = Some (h, t) <-> s = (h ++ String c t)%string /\ has_char c t = false.
Proof.
  revert h. induction s as [|x s IH]; intros h; simpl.
  - split; [discriminate|]. intros [E _]. now destruct h.
  - destruct (rpartition c s) as [[h' t']|] eqn:R.
    + split.
      * intros [= <- <-]. destruct (proj1 (IH h') eq_refl) as [-> Ht]. auto.
      * intros [E Ht]. destruct h as [|y h]; simpl in E.
        -- injection E as -> ->. apply rpartition_none in Ht. congruence.
        -- injection E as -> E. apply (fun H => proj2 (IH h) (conj H Ht)) in E.
           now injection E as -> ->.
    + apply rpartition_none in R. split.
      * destruct (Ascii.eqb_spec x c) as [->|]; [|discriminate].
        intros [= <- <-]. auto.
      * intros [E Ht]. destruct h as [|y h]; simpl in E.
        -- injection E as -> ->. now rewrite Ascii.eqb_refl.
        -- injection E as -> ->. rewrite has_char_app in R. simpl in R.
           rewrite Ascii.eqb_refl, orb_true_r in R. discriminate.
Qed.

(** The base name holds no "/", and what stands before it is empty or ends
    with "/". *)
Lemma basename_split name :
  exists dir,
    name = (dir ++ basename name)%string /\
    (dir = "" \/ exists d, dir = (d ++ "/")%string) /\
    has_char "/" (basename name) = false.
Proof.
  unfold basename. destruct (rpartition "/" name) as [[h t]|] eqn:R.
  - apply rpartition_some in R as [-> Ht].
    exists ((h ++ "/")%string). rewrite append_assoc. eauto.
  - apply rpartition_none in R. exists "". eauto.
Qed.

Lemma basename_unique dir b :
  (dir = "" \/ exists d, dir = (d ++ "/")%string) -> has_char "/" b = false ->
  basename ((dir ++ b)%string) = b.
Proof.
  unfold basename. intros [->|[d ->]] Hb.
  - simpl. apply rpartition_none in Hb. now rewrite Hb.
  - rewrite append_assoc. simpl.
    now rewrite (proj2 (rpartition_some "/" _ d b) (conj eq_refl Hb)).
Qed.

Lemma basename_app s t :
  has_char "/" t = false -> basename ((s ++ t)%string) = (basename s ++ t)%string.
Proof.
  intros Ht. destruct (basename_split s) as (dir & E & Hd & Hb).
  rewrite E at 1. rewrite append_assoc. apply basename_unique; [exact Hd|].
  now rewrite has_char_app, Hb, Ht.
Qed.

Lemma in_exts_dot e : in_exts (("." ++ e)%string) = true <-> In e IMAGE_EXTENSIONS.
Proof.
  unfold in_exts, SUPPORTED_EXTS, IMAGE_EXTENSIONS. simpl.
  rewrite !orb_true_iff, !String.eqb_eq. intuition congruence.
Qed.

(** The extension the filter looks up. *)
Lemma ext_of_base b0 e :
  has_char "." e = false ->
  (if str_in "." ((b0 ++ "." ++ e)%string)
   then "." ++ str_lower (last (str_rsplit1 "." (b0 ++ "." ++ e)) "")
   else "")%string = ("." ++ str_lower e)%string.
Proof.
  intros He. rewrite str_in_char, has_char_app. simpl. rewrite orb_true_r.
  unfold str_rsplit1.
  now rewrite (proj2 (rpartition_some "." _ b0 e) (conj eq_refl He)).
Qed.

(** C2. The archive filter keeps an entry exactly when it does not lie
    under a [__MACOSX] directory, its base name does not begin with a dot,
    it is not a directory entry (a name ending in "/"), and its extension,
    lower-cased, is one of png, jpg, jpeg, bmp, gif, tif, tiff, webp. So
    "__MACOSX/a.png", "._a.png" and "dir/" are left out and "a.PNG" is
    kept; and [list_images_in_zip] lists the kept entries of the archive. *)
Theorem archive_filter_keeps_exactly_the_images :
  (forall name,
      _is_valid_zip_image name = true <->
      ~ under_macosx name /\ ~ hidden_base name /\ ~ directory_entry name /\
      exists e, extension_of name e /\ In (str_lower e) IMAGE_EXTENSIONS) /\
  _is_valid_zip_image "__MACOSX/a.png" = false /\
  _is_valid_zip_image "._a.png" = false /\
  _is_valid_zip_image "dir/" = false /\
  _is_valid_zip_image "a.PNG" = true /\
  (forall zf name,
      In name (list_images_in_zip zf) <->
      In name (namelist zf) /\ _is_valid_zip_image name = true).
Proof.
  split; [|repeat (split; [reflexivity|]); intros zf name; apply filter_In].
  intros name. unfold _is_valid_zip_image. split.
  - destruct (str_startswith "__MACOSX/" name || str_in "/__MACOSX/" name) eqn:G1;
      [discriminate|].
    destruct (str_startswith "._" (basename name) || str_startswith "." (basename name))
      eqn:G2; [discriminate|].
    destruct (str_endswith "/" name) eqn:G3; [discriminate|].
    apply orb_false_elim in G1 as [G1a G1b], G2 as [_ G2].
    intros E. split; [|split; [|split]].
    + intros [[rest ->]|(pre & rest & ->)].
      * unfold str_startswith in G1a. now rewrite prefix_app in G1a.
      * rewrite (proj2 (str_in_iff _ _)) in G1b by eauto. discriminate.
    + intros (dir & rest & -> & Hd & Hr).
      rewrite basename_unique in G2; auto.
      unfold str_startswith in G2. now rewrite prefix_app in G2.
    + intros [d ->]. rewrite (proj2 (str_endswith_iff _ _)) in G3 by eauto. discriminate.
    + destruct (basename_split name) as (dir & En & _ & Hb).
      destruct (str_in "." (basename name)) eqn:Dot; [|discriminate].
      rewrite str_in_char in Dot. unfold str_rsplit1 in E.
      destruct (rpartition "." (basename name)) as [[h e]|] eqn:R.
      * apply rpartition_some in R as [Eb He]. simpl in E.
        apply in_exts_dot in E. exists e. split; [|exact E].
        exists (dir ++ h)%string. rewrite append_assoc.
        change ("." ++ e)%string with (String "." e). rewrite <- Eb.
        split; [exact En|].
        split; [exact He|]. rewrite Eb, has_char_app in Hb. simpl in Hb.
        now apply orb_false_elim in Hb as [_ Hb].
      * apply rpartition_none in R. congruence.
  - intros (NM & NH & ND & e & (stem & -> & He & Hs) & I).
    destruct (str_startswith "__MACOSX/" (stem ++ "." ++ e) ||
              str_in "/__MACOSX/" (stem ++ "." ++ e)) eqn:G1.
    { exfalso. apply NM. apply orb_prop in G1 as [G|G].
      - left. now apply prefix_inv.
      - right. now apply str_in_iff. }
    destruct (str_startswith "._" (basename (stem ++ "." ++ e)) ||
              str_startswith "." (basename (stem ++ "." ++ e))) eqn:G2.
    { exfalso. apply NH.
      destruct (basename_split (stem ++ "." ++ e)) as (dir & En & Hd & Hb).
      assert (D : exists rest, basename (stem ++ "." ++ e) = ("." ++ rest)%string).
      { apply orb_prop in G2 as [G|G]; apply prefix_inv in G as [rest G];
          rewrite G; eexists; reflexivity. }
      destruct D as [rest D]. exists dir, rest. rewrite <- D. split; [exact En|].
      split; [exact Hd|]. rewrite D in Hb. exact Hb. }
    destruct (str_endswith "/" (stem ++ "." ++ e)) eqn:G3.
    { exfalso. apply ND. now apply str_endswith_iff. }
    rewrite basename_app by (simpl; exact Hs).
    rewrite ext_of_base by exact He.
    now apply in_exts_dot.
Qed.

Lemma archive_filter_keeps_exactly_the_images_witness :
  _is_valid_zip_image "frames/shot.01.JPeG" = true /\
  ~ hidden_base "a.PNG".
Proof.
  destruct archive_filter_keeps_exactly_the_images as (F & _).
  split.
  - apply F. split; [|split; [|split]].
    + intros [[rest E]|(pre & rest & E)]; [discriminate E|].
      apply (f_equal (str_in "/__MACOSX/")) in E.
      rewrite (proj2 (str_in_iff "/__MACOSX/" (pre ++ "/__MACOSX/" ++ rest))) in E by eauto.
      discriminate E.
    + intros (dir & rest & E & Hd & Hr).
      apply (f_equal basename) in E. rewrite basename_unique in E by auto.
      discriminate E.
    + intros [d E]. apply (f_equal (str_endswith "/")) in E.
      rewrite (proj2 (str_endswith_iff "/" (d ++ "/"))) in E by eauto.
      discriminate E.
    + exists "JPeG". split; [|simpl; auto 10].
      exists "frames/shot.01". repeat split.
  - exact (proj1 (proj2 (proj1 (F "a.PNG") eq_refl))).
Defined.

(* ------------------------------------------------------------------ *)
(** ** Boomerang *)

Lemma flat_map_map {A B C} (g : A -> B) (f : B -> list C) l :
  flat_map f (map g l) = flat_map (fun x => f (g x)) l.
Proof. induction l as [|x l IH]; simpl; congruence. Qed.

(** Walking down from the last element of the middle part of a list visits
    that part in reverse. *)
Lemma walk_down_rev {A} (a : A) : forall (mid post : list A),
  flat_map (fun k => match item (a :: mid ++ post)
                             (Z.of_nat (List.length mid) + Z.of_nat k * -1)%Z with
                     | Some x => [x]
                     | None => []
                     end)
           (seq 0 (List.length mid)) = rev mid.
Proof.
  induction mid as [|x mid IH] using rev_ind; intros post; [reflexivity|].
  rewrite length_app, rev_app_distr. cbn [List.length rev app].
  rewrite Nat.add_1_r, <- cons_seq, <- seq_shift. cbn [flat_map].
  rewrite flat_map_map, <- (IH (x :: post)).
  assert (E : item (a :: (mid ++ [x]) ++ post)
                (Z.of_nat (S (List.length mid)) + Z.of_nat 0 * -1)%Z = Some x).
  { unfold item. ztests; [lia|].
    replace (Z.to_nat _) with (S (List.length mid)) by lia. cbn [nth_error].
    rewrite <- app_assoc. now rewrite nth_error_app2, Nat.sub_diag by lia. }
  rewrite E. cbn [app]. f_equal.
  apply flat_map_ext. intros k. rewrite <- app_assoc. cbn [app].
  replace (Z.of_nat (S (List.length mid)) + Z.of_nat (S k) * -1)%Z
      with (Z.of_nat (List.length mid) + Z.of_nat k * -1)%Z by lia.
    reflexivity.
Qed.

Lemma slice_inner_rev {A} (a z : A) (mid : list A) :
  py_slice (a :: mid ++ [z]) (-2) 0 (-1) = rev mid.
Proof.
  unfold py_slice. simpl List.length. rewrite length_app. simpl List.length.
  assert (E1 : adjust_index (Z.of_nat (S (List.length mid + 1))) (-1) (-2)
               = Z.of_nat (List.length mid)).
  { unfold adjust_index. ztests; lia. }
  assert (E2 : adjust_index (Z.of_nat (S (List.length mid + 1))) (-1) 0 = 0%Z).
  { unfold adjust_index. ztests; lia. }
  rewrite E1, E2.
  assert (E3 : Z.to_nat (slice_length (Z.of_nat (List.length mid)) 0 (-1))
               = List.length mid).
  { unfold slice_length. change (- -1)%Z with 1%Z. rewrite Z.div_1_r.
    ztests; lia. }
  rewrite E3. apply walk_down_rev.
Qed.

(** C3. With the boomerang enabled a list of more than one frame is
    followed by its reverse without the two endpoints: [A,B,C,D] becomes
    [A,B,C,D,C,B]; a list of one frame (or none) is left as it is, as is
    any list when the boomerang is off. *)
Theorem boomerang_appends_the_inner_frames_reversed :
  forall (A : Type),
    (forall (a z : A) (mid : list A),
        boomerang true (a :: mid ++ [z]) = (a :: mid ++ [z]) ++ rev mid) /\
    (forall a b c d : A, boomerang true [a; b; c; d] = [a; b; c; d; c; b]) /\
    (forall a : A, boomerang true [a] = [a]) /\
    boomerang true (@nil A) = [] /\
    (forall frames : list A, boomerang false frames = frames).
Proof.
  intros A.
  assert (B : forall (a z : A) (mid : list A),
             boomerang true (a :: mid ++ [z]) = (a :: mid ++ [z]) ++ rev mid).
  { intros a z mid. unfold boomerang.
    replace (1 <? List.length (a :: mid ++ [z]))%nat with true.
    - simpl andb. cbv iota. now rewrite slice_inner_rev.
    - symmetry. apply Nat.ltb_lt. simpl. rewrite length_app. simpl. lia. }
  split; [exact B|]. split; [|repeat split].
  - intros a b c d. exact (B a d [b; c]).
Qed.

(* ------------------------------------------------------------------ *)
(** ** Loading loop and animation encoder *)

Section Loading.
Context `{Pillow}.

Lemma load_frames_acc zf o : forall names fs sk,
  fold_left (load_step zf o) names (fs, sk) =
  (fs ++ flat_map (frames_of zf o) names, sk ++ filter (is_skipped zf o) names).
Proof.
  induction names as [|n names IH]; intros fs sk; simpl.
  - now rewrite !app_nil_r.
  - unfold load_step at 2, frames_of at 1, is_skipped at 1. simpl.
    destruct (load_entry zf o n); rewrite IH, <- ?app_assoc; reflexivity.
Qed.

Lemma load_frames_spec zf o names :
  load_frames zf o names =
  (flat_map (frames_of zf o) names, filter (is_skipped zf o) names).
Proof. unfold load_frames. now rewrite load_frames_acc. Qed.

Lemma decode_failure_skips zf o n fp :
  zf_open zf n = Some fp -> decode fp = None -> load_entry zf o n = None.
Proof.
  unfold load_entry, load_and_prepare_image. now intros -> ->.
Qed.

End Loading.




Lemma div255_exact x : (0 <= x <= 255)%Z -> div255 (x * 255) = x.
Proof.
  intros R. unfold div255. rewrite !Z.shiftr_div_pow2 by lia.
  change (2 ^ 8)%Z with 256%Z.
  Z.div_mod_to_equations. lia.
Qed.

(** The mask selects: 0 keeps the first band value, 255 takes the second. *)
Lemma blend8_0 x y : (0 <= x <= 255)%Z -> blend8 0 x y = x.
Proof.
  intros R. unfold blend8. rewrite Z.mul_0_r, Z.add_0_r. now apply div255_exact.
Qed.

Lemma blend8_255 x y : (0 <= y <= 255)%Z -> blend8 255 x y = y.
Proof.
  intros R. unfold blend8. rewrite Z.sub_diag, Z.mul_0_r, Z.add_0_l.
  now apply div255_exact.
Qed.

Lemma blend_magenta (p : Pixel) :
  List.length p = 3%nat -> blend_pixel 0 MAGENTA p = MAGENTA.
Proof.
  destruct p as [|r [|g [|b [|]]]]; try discriminate. intros _.
  unfold blend_pixel, MAGENTA. simpl.
  now rewrite !blend8_0 by lia.
Qed.

Lemma nth_error_combine {A B} (l1 : list A) : forall (l2 : list B) k a b,
  nth_error (combine l1 l2) k = Some (a, b) ->
  nth_error l1 k = Some a /\ nth_error l2 k = Some b.
Proof.
  induction l1 as [|x l1 IH]; intros [|y l2] [|k] a b; simpl; try discriminate.
  - intros [= -> ->]. auto.
  - apply IH.
Qed.

Section Encoder.
Context `{Pillow}.

Lemma size_quantize_keeping_alpha im : size (quantize_keeping_alpha im) = size im.
Proof. reflexivity. Qed.

Lemma size_process_frame st im : size (process_frame st im) = size im.
Proof.
  unfold process_frame. destruct (st && String.eqb (mode im) "RGBA"); reflexivity.
Qed.

Lemma size_eqb_eq a b : size_eqb a b = true <-> a = b.
Proof.
  unfold size_eqb. destruct a as [w h], b as [w' h']. simpl.
  rewrite andb_true_iff, !Z.eqb_eq. split; [intros [-> ->]|intros [= -> ->]]; auto.
Qed.

Lemma size_eqb_refl a : size_eqb a a = true.
Proof. now apply size_eqb_eq. Qed.

(** What [resize] returns has the size asked for, and the mode, palette
    and info of the image. *)
Lemma resize_some im sz f im' :
  resize im sz f = Some im' ->
  size im' = sz /\ mode im' = mode im /\
  info_transparency im' = info_transparency im /\ palette im' = palette im.
Proof.
  unfold resize. destruct (size_eqb (size im) sz) eqn:E.
  - apply size_eqb_eq in E. intros [= <-]. auto.
  - destruct (_ || _); [discriminate|]. intros [= <-]. auto.
Qed.

(** It returns for every size that has a width and a height. *)
Lemma resize_total im sz f :
  (1 <= fst sz)%Z -> (1 <= snd sz)%Z -> exists im', resize im sz f = Some im'.
Proof.
  intros W Hh. unfold resize. destruct (size_eqb (size im) sz); [eauto|].
  destruct (Z.ltb_spec (fst sz) 1), (Z.ltb_spec (snd sz) 1); try lia. simpl. eauto.
Qed.

Lemma resize_all_spec sz : forall frames normalized,
  resize_all sz frames = Some normalized ->
  Forall2 (resized_to sz) frames normalized.
Proof.
  induction frames as [|im rest IH]; simpl; intros normalized E.
  - injection E as <-. constructor.
  - destruct (size_eqb (size im) sz) eqn:S; simpl in E.
    + apply size_eqb_eq in S.
      destruct (resize_all sz rest) as [l|]; [|discriminate].
      injection E as <-. constructor; [left; auto|now apply IH].
    + destruct (resize im sz LANCZOS) as [im'|] eqn:R; [|discriminate].
      destruct (resize_all sz rest) as [l|]; [|discriminate].
      injection E as <-. constructor; [|now apply IH].
      right. split; [|exact R]. intros Hs. apply size_eqb_eq in Hs. congruence.
Qed.

Lemma resize_all_total sz frames :
  (1 <= fst sz)%Z -> (1 <= snd sz)%Z ->
  exists normalized, resize_all sz frames = Some normalized.
Proof.
  intros W Hh. induction frames as [|im rest [l IH]]; simpl; [eauto|].
  rewrite IH. destruct (negb _); simpl; [|eauto].
  destruct (resize_total im sz LANCZOS W Hh) as [im' ->]. simpl. eauto.
Qed.

Lemma resized_to_props sz im im' :
  resized_to sz im im' ->
  size im' = sz /\ mode im' = mode im /\ info_transparency im' = info_transparency im.
Proof.
  intros [[S ->]|[_ R]]; [auto|]. apply resize_some in R. tauto.
Qed.



(** C6. When the first frame has a width and a height, the encoder brings
    every frame to its size: the frames handed to the container's save call
    are as many as the frames given, each of them the frame at the same
    place, untouched when its size is the size of the first frame and
    resized to exactly that width and height otherwise; so every one of
    them has the geometry of the first frame, and none is dropped. *)
Theorem frames_are_normalised_to_the_first_frame :
  forall (base : Image) (rest : list Image) (save_transparency : bool),
    (1 <= fst (size base))%Z -> (1 <= snd (size base))%Z ->
    exists normalized,
      normalize_sizes (base :: rest) = Some normalized /\
      Forall2 (resized_to (size base)) (base :: rest) normalized /\
      processed_frames (base :: rest) save_transparency =
      Some (map (process_frame save_transparency) normalized) /\
      List.length (map (process_frame save_transparency) normalized) =
      List.length (base :: rest) /\
      Forall (fun im => size im = size base)
             (map (process_frame save_transparency) normalized) /\
      (forall duration_ms loop disposal optimize,
          build_gif (base :: rest) duration_ms loop disposal optimize save_transparency =
          inr (save_gif (map (process_frame save_transparency) normalized)
                        duration_ms loop disposal optimize)).
Proof.
  intros base rest st W Hh.
  destruct (resize_all_total (size base) (base :: rest) W Hh) as [normalized E].
  pose proof (resize_all_spec _ _ _ E) as F.
  exists normalized. split; [exact E|]. split; [exact F|].
  assert (P : processed_frames (base :: rest) st =
              Some (map (process_frame st) normalized)).
  { unfold processed_frames, normalize_sizes. now rewrite E. }
  split; [exact P|]. split; [|split].
  - rewrite length_map. symmetry. exact (Forall2_length F).
  - apply Forall_map. clear E P.
    induction F as [|im im' l l' R _ IH]; constructor; [|exact IH].
    rewrite size_process_frame. now apply resized_to_props in R.
  - intros. unfold build_gif. now rewrite P.
Qed.

Lemma matte_composite_transparent im k px a :
  rgb_has_three_bands ->
  nth_error (data (matte_composite im)) k = Some px ->
  nth_error (data im) k = Some a -> last a 0%Z = 0%Z ->
  px = MAGENTA.
Proof.
  intros RGB Ek Ea Alpha. unfold matte_composite, composite in Ek. simpl in Ek.
  rewrite nth_error_map in Ek.
  destruct (nth_error (combine _ _) k) as [[[p1 p2] m]|] eqn:E; [|discriminate].
  injection Ek as <-. simpl.
  apply nth_error_combine in E as [E Em]. apply nth_error_combine in E as [E1 E2].
  cbn [last_band new convert data] in Em, E1, E2.
  rewrite nth_error_map in Em. unfold Pixel in *. rewrite Ea in Em. injection Em as <-. simpl. rewrite Alpha.
  apply nth_error_In in E2. apply repeat_spec in E2. subst p2.
  apply blend_magenta.
  apply nth_error_In in E1. exact (proj1 (Forall_forall _ _) (RGB im) _ E1).
Qed.

(** C5. What the encoder does to an "RGBA" frame when transparency is to
    be kept: the frame is composited over a magenta matte through its alpha
    band, so that a pixel whose alpha is 0 becomes (255, 0, 255); the
    result is quantised to a palette of at most 255 colours, and
    [info["transparency"]] is set to 255. Every pixel of the quantised
    frame is an index below 255: the index marked transparent is the index
    of no pixel, the matte pixels included. *)
Theorem transparency_index_is_no_pixel_of_the_frame :
  quantize_in_range -> rgb_has_three_bands ->
  forall im : Image,
    process_frame true im =
    (if String.eqb (mode im) "RGBA" then quantize_keeping_alpha im else im) /\
    quantize_keeping_alpha im =
    set_info_transparency 255
      (convert_P_adaptive 255 FLOYDSTEINBERG (matte_composite im)) /\
    (forall k px a,
        nth_error (data (matte_composite im)) k = Some px ->
        nth_error (data im) k = Some a -> last a 0%Z = 0%Z ->
        px = MAGENTA) /\
    mode (quantize_keeping_alpha im) = "P" /\
    (List.length (palette (quantize_keeping_alpha im)) <= 255)%nat /\
    info_transparency (quantize_keeping_alpha im) = Some (InfoInt 255) /\
    Forall (fun px => exists i, px = [i] /\ (0 <= i < 255)%Z)
           (data (quantize_keeping_alpha im)) /\
    ~ In [255%Z] (data (quantize_keeping_alpha im)).
Proof.
  intros Q RGB im.
  destruct (Q 255%Z FLOYDSTEINBERG (matte_composite im)) as [QL QI]; [lia|].
  unfold matte_composite, MAGENTA in QL, QI.
  assert (F : Forall (fun px => exists i, px = [i] /\ (0 <= i < 255)%Z)
                     (data (quantize_keeping_alpha im))).
  { unfold quantize_keeping_alpha. simpl. apply Forall_map.
    eapply Forall_impl; [|exact QI]. intros i Hi. exists i.
    cbv beta in Hi. split; [reflexivity|lia]. }
  split; [reflexivity|]. split; [reflexivity|].
  split; [intros k px a; now apply matte_composite_transparent|].
  split; [reflexivity|]. split; [simpl; lia|].
  split; [reflexivity|]. split; [exact F|].
  intros I. apply (proj1 (Forall_forall _ _) F) in I as (i & [= <-] & Hi). lia.
Qed.

Lemma item_In {A} (l : list A) i x : item l i = Some x -> In x l.
Proof.
  unfold item. destruct (i <? 0)%Z; [discriminate|]. apply nth_error_In.
Qed.

Lemma py_slice_In {A} (l : list A) start stop step x :
  In x (py_slice l start stop step) -> In x l.
Proof.
  unfold py_slice. intros I. apply in_flat_map in I as (k & _ & I).
  destruct (item l _) as [y|] eqn:E; [|contradiction].
  destruct I as [<-|[]]. now apply item_In in E.
Qed.

Lemma boomerang_In {A} b (l : list A) x : In x (boomerang b l) -> In x l.
Proof.
  unfold boomerang. destruct (b && _); [|auto].
  intros [I|I]%in_app_or; [exact I|now apply py_slice_In in I].
Qed.

Lemma normalize_sizes_spec frames normalized :
  normalize_sizes frames = Some normalized ->
  map mode normalized = map mode frames /\
  map info_transparency normalized = map info_transparency frames.
Proof.
  unfold normalize_sizes. destruct frames as [|base rest].
  - intros [= <-]. auto.
  - intros E. apply resize_all_spec in E.
    induction E as [|im im' l l' R _ [IH1 IH2]]; [auto|].
    apply resized_to_props in R as (_ & M & I). simpl. split; congruence.
Qed.

Lemma load_palette_mode zf name tw fm bg dither im :
  load_and_prepare_image zf name tw fm bg true dither = Some im -> mode im = "P".
Proof.
  unfold load_and_prepare_image.
  destruct (zf_open zf name) as [fp|]; [|discriminate].
  destruct (decode fp) as [src|]; [|discriminate].
  destruct (resize_to_width tw fm (convert_colors bg src)); [|discriminate].
  now intros [= <-].
Qed.

Lemma process_frame_palette st im : mode im = "P" -> process_frame st im = im.
Proof. unfold process_frame. intros ->. now rewrite andb_false_r. Qed.

Lemma processed_of_palette_frames frames st :
  Forall (fun im => mode im = "P") frames ->
  processed_frames frames st = normalize_sizes frames.
Proof.
  intros F. unfold processed_frames.
  destruct (normalize_sizes frames) as [normalized|] eqn:E; [|reflexivity].
  simpl. f_equal.
  assert (N : Forall (fun im => mode im = "P") normalized).
  { apply Forall_forall. intros im I.
    apply (in_map mode) in I. rewrite (proj1 (normalize_sizes_spec _ _ E)) in I.
    apply in_map_iff in I as (im' & <- & I').
    exact (proj1 (Forall_forall _ _) F _ I'). }
  clear E. induction N as [|im l M _ IH]; [reflexivity|]. simpl.
  now rewrite IH, process_frame_palette.
Qed.


End Encoder.

(** Runs on the small codec. *)
Section EncoderRuns.
#[local] Existing Instance toy_pillow.

Lemma toy_quantize_in_range : @quantize_in_range toy_pillow.
Proof.
  intros colors d im C. simpl. split; [lia|].
  apply Forall_map, Forall_forall. intros; lia.
Qed.

Lemma toy_rgb_has_three_bands : @rgb_has_three_bands toy_pillow.
Proof.
  intros im. simpl. unfold toy_convert_data. simpl.
  apply Forall_map, Forall_forall. reflexivity.
Qed.

Lemma transparency_index_is_no_pixel_of_the_frame_witness :
  info_transparency (quantize_keeping_alpha transparent_frame) = Some (InfoInt 255) /\
  ~ In [255%Z] (data (quantize_keeping_alpha transparent_frame)) /\
  data (matte_composite transparent_frame) = [MAGENTA].
Proof.
  destruct (@transparency_index_is_no_pixel_of_the_frame toy_pillow
              toy_quantize_in_range toy_rgb_has_three_bands transparent_frame)
    as (_ & _ & _ & _ & _ & T & _ & N).
  split; [exact T|]. split; [exact N|reflexivity].
Defined.


Lemma frames_are_normalised_to_the_first_frame_witness :
  exists processed,
    processed_frames
      [transparent_frame;
       {| mode := "RGB"; size := (3, 2)%Z; data := repeat [1; 2; 3]%Z 6;
          palette := []; info_transparency := None |}] true = Some processed /\
    Forall (fun im => size im = (1, 1)%Z) processed.
Proof.
  destruct (@frames_are_normalised_to_the_first_frame toy_pillow transparent_frame
              [{| mode := "RGB"; size := (3, 2)%Z; data := repeat [1; 2; 3]%Z 6;
                  palette := []; info_transparency := None |}] true)
    as (normalized & _ & _ & P & _ & S & _); [simpl; lia|simpl; lia|].
  exists (map (process_frame true) normalized). split; [exact P|exact S].
Defined.




End EncoderRuns.

(* ------------------------------------------------------------------ *)
(** ** Frame loader *)

Lemma py_round_div_nearest n d : (0 < d)%Z -> nearest_to (py_round_div n d) n d.
Proof.
  intros D. unfold nearest_to, py_round_div.
  pose proof (Z.div_mod n d ltac:(lia)) as E.
  pose proof (Z.mod_pos_bound n d D) as B.
  ztests; [nia|nia|]. destruct (Z.even (n / d)); nia.
Qed.

Lemma py_round_div_exact k d : (0 < d)%Z -> py_round_div (k * d) d = k.
Proof.
  intros D. unfold py_round_div. rewrite Z.div_mul, Z.mod_mul by lia.
  ztests; lia.
Qed.

Lemma py_round_div_le n d k : (0 < d)%Z -> (n <= k * d)%Z -> (py_round_div n d <= k)%Z.
Proof.
  intros D L. pose proof (py_round_div_nearest n d D) as N. unfold nearest_to in N.
  nia.
Qed.

Lemma py_round_div_nonneg n d : (0 < d)%Z -> (0 <= n)%Z -> (0 <= py_round_div n d)%Z.
Proof.
  intros D L. pose proof (py_round_div_nearest n d D) as N. unfold nearest_to in N.
  nia.
Qed.

Section Loader.
Context `{Pillow}.

(** The size [ImageOps.contain] asks for: not wider than the box, and of
    the aspect ratio of the image up to rounding. *)
Lemma contain_size_fits w h tw :
  (0 < w)%Z -> (0 < h)%Z -> (0 < tw)%Z ->
  let sz := contain_size (w, h) (tw, 10 ^ 9)%Z in
  (fst sz <= tw)%Z /\
  ((fst sz = tw /\ nearest_to (snd sz) (h * tw) w) \/
   (snd sz = 10 ^ 9 /\ nearest_to (fst sz) (w * 10 ^ 9) h))%Z.
Proof.
  intros W Hh T. unfold contain_size. cbv zeta.
  destruct (Z.eqb_spec (w * 10 ^ 9) (tw * h)) as [E|NE]; cbn [fst snd].
  - split; [lia|]. left. split; [reflexivity|]. unfold nearest_to. nia.
  - destruct (Z.ltb_spec (tw * h) (w * 10 ^ 9)); cbn [fst snd].
    + split; [lia|]. left. split; [reflexivity|now apply py_round_div_nearest].
    + split; [apply py_round_div_le; lia|]. right.
      split; [reflexivity|now apply py_round_div_nearest].
Qed.


Lemma has_alpha_iff im :
  has_alpha im = true <->
  mode im = "RGBA" \/ mode im = "LA" \/
  (mode im = "P" /\ info_transparency im <> None).
Proof.
  unfold has_alpha. rewrite !orb_true_iff, andb_true_iff, !String.eqb_eq.
  destruct (info_transparency im); intuition congruence.
Qed.

Lemma mode_resize_to_width tw fm im im' :
  resize_to_width tw fm im = Some im' -> mode im' = mode im.
Proof.
  unfold resize_to_width. destruct tw as [tw|]; [|now intros [= <-]].
  destruct (negb _ && _); [|now intros [= <-]].
  destruct (String.eqb fm "fit").
  - destruct (_ =? 0)%Z; [discriminate|]. unfold contain.
    intros R. now apply resize_some in R.
  - destruct (String.eqb fm "stretch"); [|now intros [= <-]].
    destruct (size im) as [w h]. destruct (negb _); [|now intros [= <-]].
    destruct (w =? 0)%Z; [discriminate|].
    intros R. now apply resize_some in R.
Qed.


End Loader.

Section LoaderRuns.
#[local] Existing Instance toy_pillow.



End LoaderRuns.

(* ------------------------------------------------------------------ *)
(** ** Requests run on the small codec *)

Section Scenarios.
#[local] Existing Instance toy_pillow.

Example eligible_names_in_natural_order :
  sort_names false (list_images_in_zip numbered_archive) =
  Some ["f1.png"; "f2.png"; "f10.png"].
Proof. reflexivity. Qed.

Example three_frames_are_built :
  exists gif, make_gif numbered_archive toy_options = Built gif 3 [] false.
Proof. eexists. reflexivity. Qed.

Example text_only_archive_has_no_images :
  make_gif [("notes.txt", [Byte.x68; Byte.x69])] toy_options = NoImages.
Proof. reflexivity. Qed.

Example undecodable_entry_is_skipped :
  exists gif, make_gif toy_archive toy_options = Built gif 2 ["b.png"] false.
Proof. eexists. reflexivity. Qed.

Example boomerang_of_the_request :
  exists gif,
    make_gif numbered_archive
      {| descending := true; reverse_frames := true; target_width := 0;
         fit_mode := "none"; to_palette := false; dither := false;
         bg_transparent := false; bg_color := (0, 0, 0)%Z;
         fps := 30; loop := 0; disposal := 2 |} = Built gif 4 [] false.
Proof. eexists. reflexivity. Qed.

End Scenarios.

(* ------------------------------------------------------------------ *)
(** ** Further properties: natural sort *)

Section SortMore.
Context {A K : Type}.
Variable key : A -> K.
Variable lt : K -> K -> option bool.

Lemma insert_sorted_map {B} (f : B -> A) x : forall l,
  insert_sorted key lt (f x) (map f l) =
  option_map (map f) (insert_sorted (fun b => key (f b)) lt x l).
Proof.
  induction l as [|y l IH]; [reflexivity|]. simpl.
  destruct (lt (key (f y)) (key (f x))) as [[|]|]; try reflexivity.
  rewrite IH. now destruct (insert_sorted _ lt x l).
Qed.

Lemma sort_asc_map {B} (f : B -> A) : forall l,
  sort_asc key lt (map f l) = option_map (map f) (sort_asc (fun b => key (f b)) lt l).
Proof.
  induction l as [|x l IH]; [reflexivity|]. simpl. rewrite IH.
  destruct (sort_asc _ lt l) as [s|]; [|reflexivity]. simpl.
  apply insert_sorted_map.
Qed.

(** An ordered list is returned as it is. *)
Lemma sort_asc_of_ordered : forall l,
  StronglySorted (fun a b => lt (key b) (key a) = Some false) l ->
  sort_asc key lt l = Some l.
Proof.
  induction 1 as [|x l S IH F]; [reflexivity|]. simpl. rewrite IH.
  destruct l as [|y l]; [reflexivity|]. simpl.
  now rewrite (Forall_inv F).
Qed.

End SortMore.

(** Two ordered lists of the same elements are one list, when no two
    different elements are each allowed before the other. *)
Lemma ordered_perm_unique {A} (R : A -> A -> Prop) : forall l1 l2,
  StronglySorted R l1 -> StronglySorted R l2 -> Permutation l1 l2 ->
  (forall a b, In a l1 -> In b l1 -> R a b -> R b a -> a = b) ->
  l1 = l2.
Proof.
  induction l1 as [|x t1 IH]; intros l2 S1 S2 P Anti.
  - now apply Permutation_nil in P.
  - destruct l2 as [|y t2]; [now apply Permutation_sym, Permutation_nil in P|].
    apply StronglySorted_inv in S1 as [S1 F1].
    apply StronglySorted_inv in S2 as [S2 F2].
    assert (E : x = y).
    { assert (Ix : In x (y :: t2)) by (eapply Permutation_in; [exact P|now left]).
      assert (Iy : In y (x :: t1))
        by (eapply Permutation_in; [apply Permutation_sym; exact P|now left]).
      destruct Ix as [->|Ix]; [reflexivity|].
      destruct Iy as [->|Iy]; [reflexivity|].
      apply Anti; [now left|now right| |].
      - exact (proj1 (Forall_forall _ _) F1 _ Iy).
      - exact (proj1 (Forall_forall _ _) F2 _ Ix). }
    subst y. f_equal. apply IH; auto.
    + now apply Permutation_cons_inv in P.
    + intros a b Ia Ib. apply Anti; now right.
Qed.

Lemma StronglySorted_weaken {A} (R Q : A -> A -> Prop) l :
  (forall a b, In a l -> In b l -> R a b -> Q a b) ->
  StronglySorted R l -> StronglySorted Q l.
Proof.
  intros W S. induction S as [|x l S IH F]; constructor.
  - apply IH. intros a b Ia Ib. apply W; now right.
  - apply Forall_forall. intros b Ib. apply W; [now left|now right|].
    exact (proj1 (Forall_forall _ _) F _ Ib).
Qed.

Lemma sort_names_ordered reverse names sorted :
  sort_names reverse names = Some sorted ->
  Permutation names sorted /\
  StronglySorted
    (fun a b => if reverse : bool
                then key_le (natural_key b) (natural_key a)
                else key_le (natural_key a) (natural_key b)) sorted.
Proof.
  unfold sort_names, list_sort. destruct reverse.
  - destruct (sort_asc natural_key key_lt (rev names)) as [s|] eqn:E; [|discriminate].
    intros [= <-]. split.
    + eapply perm_trans; [apply Permutation_rev|].
      eapply perm_trans; [eapply sort_asc_perm; exact E|apply Permutation_rev].
    + apply (StronglySorted_rev (fun a b => key_le (natural_key a) (natural_key b))).
      exact (sort_asc_ordered natural_key key_lt key_lt_asym
               (fun a b c => key_le_trans a b c) _ _ E).
  - intros E. split; [eapply sort_asc_perm; exact E|].
    exact (sort_asc_ordered natural_key key_lt key_lt_asym
             (fun a b c => key_le_trans a b c) _ _ E).
Qed.

Lemma sort_names_total reverse names :
  (forall a b, In a names -> In b names ->
               key_lt (natural_key a) (natural_key b) <> None) ->
  exists sorted, sort_names reverse names = Some sorted.
Proof.
  intros C. unfold sort_names, list_sort. destruct reverse.
  - destruct (sort_asc_total natural_key key_lt (rev names)) as [s ->].
    + intros a b Ha%in_rev Hb%in_rev. now apply C.
    + simpl. eauto.
  - now apply sort_asc_total.
Qed.



(** X2. For names whose keys are pairwise different and can be compared
    with each other, the sorted list does not depend on the order in which
    the archive lists them: any rearrangement of the names is sorted to the
    same list. *)
Theorem sorted_order_is_independent_of_archive_order :
  forall (reverse : bool) (names names' : list string),
    (forall a b, In a names -> In b names ->
                 key_lt (natural_key a) (natural_key b) <> None) ->
    NoDup (map natural_key names) ->
    Permutation names names' ->
    exists sorted,
      sort_names reverse names = Some sorted /\
      sort_names reverse names' = Some sorted.
Proof.
  intros reverse names names' C N P.
  destruct (sort_names_total reverse names C) as [s1 E1].
  destruct (sort_names_total reverse names') as [s2 E2].
  { intros a b Ia Ib.
    apply C; eapply Permutation_in; try apply Permutation_sym; eassumption. }
  exists s1. split; [exact E1|]. rewrite E2. f_equal. symmetry.
  destruct (sort_names_ordered _ _ _ E1) as [P1 S1].
  destruct (sort_names_ordered _ _ _ E2) as [P2 S2].
  eapply ordered_perm_unique; [exact S1|exact S2| |].
  - eapply perm_trans; [apply Permutation_sym; exact P1|].
    eapply perm_trans; [exact P|exact P2].
  - intros a b Ia Ib Rab Rba.
    assert (Ek : natural_key a = natural_key b).
    { destruct reverse; [symmetry|]; now apply key_le_antisym. }
    apply (Permutation_in _ (Permutation_sym P1)) in Ia, Ib.
    clear - N Ia Ib Ek. induction names as [|n names IH]; [contradiction|].
    simpl in N. apply NoDup_cons_iff in N as [Nn N].
    destruct Ia as [->|Ia], Ib as [->|Ib]; auto.
    + exfalso. apply Nn. rewrite Ek. now apply in_map.
    + exfalso. apply Nn. rewrite <- Ek. now apply in_map.
Qed.

Lemma sorted_order_is_independent_of_archive_order_witness :
  exists sorted,
    sort_names false ["b2.png"; "a10.png"; "a9.png"] = Some sorted /\
    sort_names false ["a9.png"; "b2.png"; "a10.png"] = Some sorted.
Proof.
  apply sorted_order_is_independent_of_archive_order.
  - intros a b Ha Hb. simpl in Ha, Hb.
    repeat (destruct Ha as [<-|Ha]; [|]); try contradiction;
      repeat (destruct Hb as [<-|Hb]; [|]); try contradiction; discriminate.
  - simpl. repeat constructor; simpl; intuition discriminate.
  - apply Permutation_sym. eapply perm_trans; [apply perm_swap|].
    apply perm_skip. apply perm_swap. 
Defined.

(** X3. Sorting is idempotent: a list that the sort returned is returned
    unchanged when sorted again in the same direction. *)
Theorem sorting_a_sorted_list_changes_nothing :
  forall (reverse : bool) (names sorted : list string),
    sort_names reverse names = Some sorted ->
    sort_names reverse sorted = Some sorted.
Proof.
  intros reverse names sorted E.
  destruct (sort_names_ordered _ _ _ E) as [_ S].
  unfold sort_names, list_sort. destruct reverse.
  - apply (StronglySorted_rev
             (fun a b => key_le (natural_key b) (natural_key a))) in S.
    rewrite (sort_asc_of_ordered natural_key key_lt _ S). simpl.
    now rewrite rev_involutive.
  - exact (sort_asc_of_ordered natural_key key_lt _ S).
Qed.

Lemma sorting_a_sorted_list_changes_nothing_witness :
  sort_names true ["a10.png"; "A10.png"; "a2.png"] =
  Some ["a10.png"; "A10.png"; "a2.png"].
Proof.
  exact (sorting_a_sorted_list_changes_nothing true
           ["a2.png"; "a10.png"; "A10.png"] ["a10.png"; "A10.png"; "a2.png"] eq_refl).
Defined.

Lemma int_acc_app a : forall acc b,
  int_acc acc (a ++ b) = int_acc (int_acc acc a) b.
Proof. induction a as [|c a IH]; intros acc b; simpl; [reflexivity|apply IH]. Qed.

Lemma int_acc_zeros n : int_acc 0 (zeros n) = 0%Z.
Proof. induction n as [|n IH]; [reflexivity|exact IH]. Qed.

Lemma all_digits_zeros n : all_digits (zeros n) = true.
Proof. induction n as [|n IH]; [reflexivity|exact IH]. Qed.

Lemma all_digits_app a b : all_digits (a ++ b) = all_digits a && all_digits b.
Proof.
  induction a as [|c a IH]; simpl; [reflexivity|]. now rewrite IH, andb_assoc.
Qed.

Lemma str_isdigit_zeros n d : str_isdigit d = true -> str_isdigit (zeros n ++ d) = true.
Proof.
  intros D. assert (A : all_digits (zeros n ++ d) = true).
  { rewrite all_digits_app, all_digits_zeros. destruct d; [discriminate|exact D]. }
  destruct (zeros n ++ d)%string eqn:E; [|exact A].
  destruct n; [|discriminate E]. simpl in E. now subst d.
Qed.



Lemma int_acc_nonneg s : forall acc,
  all_digits s = true -> (0 <= acc)%Z -> (0 <= int_acc acc s)%Z.
Proof.
  induction s as [|c s IH]; intros acc D A; [exact A|].
  cbn [all_digits] in D. apply andb_prop in D as [Dc Ds].
  cbn [int_acc]. apply IH; [exact Ds|].
  unfold is_digit in Dc. apply andb_prop in Dc as [L _]. apply N.leb_le in L.
  unfold digit_val. lia.
Qed.

Lemma all_class_lower b s : all_class b (str_lower s) = all_class b s.
Proof. induction s as [|c s IH]; simpl; [reflexivity|]. now rewrite is_digit_lower, IH. Qed.

(** What a run becomes in the key. *)
Lemma token_of_run b r :
  starts_with_class b r = true -> all_class b r = true ->
  is_int (token_of r) = b /\
  match token_of r with
  | TInt v => (0 <= v)%Z
  | TStr x => x <> "" /\ no_digit x = true /\ str_lower x = x
  end.
Proof.
  intros S C. destruct r as [|c r]; [discriminate|]. simpl in S.
  apply Bool.eqb_prop in S. destruct b.
  - rewrite all_class_digits in C.
    rewrite token_of_digits by exact C. split; [reflexivity|].
    apply int_acc_nonneg; [exact C|lia].
  - rewrite token_of_text by (try discriminate; exact C). split; [reflexivity|].
    split; [discriminate|]. split; [|apply str_lower_idem].
    unfold no_digit. now rewrite all_class_lower.
Qed.


(* ------------------------------------------------------------------ *)
(** ** Further properties: archive entries *)

(* lemmas *)

Lemma not_under_macosx_guard name :
  ~ under_macosx name ->
  str_startswith "__MACOSX/" name || str_in "/__MACOSX/" name = false.
Proof.
  intros N. destruct (_ || _) eqn:G; [|reflexivity].
  exfalso. apply N. apply orb_prop in G as [G|G].
  - left. now apply prefix_inv.
  - right. now apply str_in_iff.
Qed.

(** A string without "/" has none of the shapes the filter tests with it. *)
Lemma no_slash_guards b :
  has_char "/" b = false ->
  str_startswith "__MACOSX/" b || str_in "/__MACOSX/" b = false /\
  str_endswith "/" b = false /\
  basename b = b.
Proof.
  intros Hb. split; [|split].
  - destruct (_ || _) eqn:G; [|reflexivity]. exfalso.
    apply orb_prop in G as [G|G].
    + apply prefix_inv in G as [rest ->]. discriminate Hb.
    + apply str_in_iff in G as (pre & rest & ->).
      rewrite has_char_app in Hb. simpl in Hb. now rewrite orb_true_r in Hb.
  - destruct (str_endswith "/" b) eqn:G; [|reflexivity]. exfalso.
    apply str_endswith_iff in G as [d ->].
    rewrite has_char_app in Hb. simpl in Hb. now rewrite orb_true_r in Hb.
  - apply (basename_unique "" b); auto.
Qed.

(** X6. Outside [__MACOSX] the filter looks only at the base name: an entry
    in any folder is kept exactly when its base name alone would be kept. *)
Theorem filter_looks_only_at_the_base_name :
  forall name : string,
    ~ under_macosx name ->
    _is_valid_zip_image name = _is_valid_zip_image (basename name).
Proof.
  intros name N.
  destruct (basename_split name) as (dir & En & Hd & Hb).
  destruct (no_slash_guards _ Hb) as (G1 & G3 & B).
  unfold _is_valid_zip_image at 2. rewrite G1, G3, B.
  unfold _is_valid_zip_image. rewrite (not_under_macosx_guard name N).
  destruct (str_startswith "._" (basename name) || str_startswith "." (basename name))
    eqn:G2; [reflexivity|].
  destruct (str_endswith "/" name) eqn:E; [|reflexivity].
  apply str_endswith_iff in E as [d E].
  assert (Z : basename name = "").
  { rewrite E. rewrite <- (append_empty_r (d ++ "/")).
    apply (basename_unique (d ++ "/") ""); [right; eauto|reflexivity]. }
  rewrite Z. reflexivity.
Qed.

Lemma filter_looks_only_at_the_base_name_witness :
  _is_valid_zip_image "shots/day 1/a.PNG" = _is_valid_zip_image "a.PNG".
Proof.
  apply (filter_looks_only_at_the_base_name "shots/day 1/a.PNG").
  intros [[rest E]|(pre & rest & E)]; [discriminate E|].
  apply (f_equal (str_in "/__MACOSX/")) in E.
  rewrite (proj2 (str_in_iff "/__MACOSX/" (pre ++ "/__MACOSX/" ++ rest))) in E by eauto.
  discriminate E.
Defined.

Lemma zf_open_listed (zf : ZipFile) n :
  In n (namelist zf) -> exists fp, zf_open zf n = Some fp /\ In (n, fp) zf.
Proof.
  unfold namelist, zf_open. intros I.
  apply in_map_iff in I as ([n' fp'] & E & I). simpl in E. subst n'.
  destruct (find (fun e => String.eqb (fst e) n) (rev zf)) as [[m fp]|] eqn:F.
  - apply find_some in F as [I' E']. simpl in E'. apply String.eqb_eq in E'. subst m.
    exists fp. split; [reflexivity|]. now apply in_rev.
  - exfalso. apply in_rev in I. pose proof (find_none _ _ F (n, fp') I) as C.
    simpl in C. now rewrite String.eqb_refl in C.
Qed.

Section Skipped.
Context `{Pillow}.


End Skipped.

Section SkippedRuns.
#[local] Existing Instance toy_pillow.


End SkippedRuns.

(* ------------------------------------------------------------------ *)
(** ** Further properties: frame loader *)

Lemma py_round_div_zero n d :
  (0 < d)%Z -> (0 <= n)%Z -> (py_round_div n d = 0 <-> 2 * n <= d)%Z.
Proof.
  intros D N. pose proof (py_round_div_nearest n d D) as R. unfold nearest_to in R.
  split.
  - intros E. rewrite E in R. lia.
  - intros L. unfold py_round_div.
    assert (Q : (n / d = 0)%Z) by (apply Z.div_small; lia).
    assert (M : (n mod d = n)%Z) by (apply Z.mod_small; lia).
    rewrite Q, M. ztests; try lia. reflexivity.
Qed.

Section LoaderMore.
Context `{Pillow}.

Lemma size_convert_colors bg im : size (convert_colors bg im) = size im.
Proof.
  unfold convert_colors. destruct (has_alpha im); [|reflexivity].
  destruct bg as [[[r g] b]|]; reflexivity.
Qed.

Lemma size_to_palette_step p d im : size (to_palette_step p d im) = size im.
Proof. unfold to_palette_step. now destruct p. Qed.

Lemma fit_unfold im w h tw :
  size im = (w, h) -> (0 < h)%Z -> (0 < tw)%Z ->
  resize_to_width (Some tw) "fit" im =
  resize im (contain_size (w, h) (tw, 10 ^ 9)%Z) BICUBIC.
Proof.
  intros S Hh T. unfold resize_to_width.
  replace (negb (tw =? 0)%Z && (0 <? tw)%Z) with true
    by (symmetry; destruct (Z.eqb_spec tw 0), (Z.ltb_spec 0 tw); simpl; lia).
  simpl String.eqb. cbv iota. rewrite S. simpl snd.
  destruct (Z.eqb_spec h 0); [lia|]. unfold contain. now rewrite S.
Qed.

Lemma stretch_unfold im w h tw :
  size im = (w, h) -> (0 < w)%Z -> (0 < tw)%Z ->
  resize_to_width (Some tw) "stretch" im =
  if (w =? tw)%Z then Some im
  else resize im (tw, Z.max 1 (py_round_div (h * tw) w)) LANCZOS.
Proof.
  intros S W T. unfold resize_to_width.
  replace (negb (tw =? 0)%Z && (0 <? tw)%Z) with true
    by (symmetry; destruct (Z.eqb_spec tw 0), (Z.ltb_spec 0 tw); simpl; lia).
  simpl String.eqb. cbv iota. rewrite S.
  destruct (Z.eqb_spec w tw); simpl; [reflexivity|].
  destruct (Z.eqb_spec w 0); [lia|reflexivity].
Qed.

(** X8. In mode "fit" an image that is not absurdly tall (its height at
    most 10^9 / target_width times its width) comes out exactly as wide as
    the target width, also when it was narrower: small images are enlarged.
    Its height is the proportional one rounded to a nearest integer. Only an
    image taller than that is made 10^9 high and narrower than the target. *)
Theorem fit_scales_to_the_target_width :
  forall (im im' : Image) (w h tw : Z),
    size im = (w, h) -> (0 < w)%Z -> (0 < h)%Z -> (0 < tw)%Z ->
    resize_to_width (Some tw) "fit" im = Some im' ->
    ((tw * h <= w * 10 ^ 9)%Z ->
     fst (size im') = tw /\ nearest_to (snd (size im')) (h * tw) w) /\
    ((w * 10 ^ 9 < tw * h)%Z ->
     snd (size im') = (10 ^ 9)%Z /\ (fst (size im') <= tw)%Z /\
     nearest_to (fst (size im')) (w * 10 ^ 9) h).
Proof.
  intros im im' w h tw S W Hh T E.
  rewrite (fit_unfold im w h tw S Hh T) in E.
  apply resize_some in E as (Sz & _). rewrite Sz. unfold contain_size.
  split; intros L.
  - destruct (Z.eqb_spec (w * 10 ^ 9) (tw * h)) as [Eq|NE]; cbn [fst snd].
    + split; [reflexivity|]. unfold nearest_to. nia.
    + destruct (Z.ltb_spec (tw * h) (w * 10 ^ 9)); [|lia]. cbn [fst snd].
      split; [reflexivity|now apply py_round_div_nearest].
  - destruct (Z.eqb_spec (w * 10 ^ 9) (tw * h)) as [Eq|NE]; [lia|].
    destruct (Z.ltb_spec (tw * h) (w * 10 ^ 9)); [lia|]. cbn [fst snd].
    split; [reflexivity|]. split; [apply py_round_div_le; lia|].
    now apply py_round_div_nearest.
Qed.


Lemma contain_size_cases w h tw :
  (contain_size (w, h) (tw, 10 ^ 9) = (tw, 10 ^ 9) /\ w * 10 ^ 9 = tw * h)%Z \/
  (contain_size (w, h) (tw, 10 ^ 9) = (tw, py_round_div (h * tw) w) /\
   tw * h < w * 10 ^ 9)%Z \/
  (contain_size (w, h) (tw, 10 ^ 9) = (py_round_div (w * 10 ^ 9) h, 10 ^ 9) /\
   w * 10 ^ 9 < tw * h)%Z.
Proof.
  unfold contain_size.
  destruct (Z.eqb_spec (w * 10 ^ 9) (tw * h)); [auto|].
  destruct (Z.ltb_spec (tw * h) (w * 10 ^ 9)); [auto|].
  right. right. split; [reflexivity|lia].
Qed.

Lemma contain_size_idem w h tw :
  (0 < w)%Z -> (0 < h)%Z -> (0 < tw)%Z ->
  (1 <= fst (contain_size (w, h) (tw, 10 ^ 9)))%Z ->
  (1 <= snd (contain_size (w, h) (tw, 10 ^ 9)))%Z ->
  contain_size (contain_size (w, h) (tw, 10 ^ 9)%Z) (tw, 10 ^ 9)%Z =
  contain_size (w, h) (tw, 10 ^ 9)%Z.
Proof.
  intros W Hh T.
  destruct (contain_size_cases w h tw) as [[-> E]|[[-> E]|[-> E]]];
    cbn [fst snd]; intros A B.
  - unfold contain_size. now rewrite Z.eqb_refl.
  - pose proof (py_round_div_le (h * tw) w (10 ^ 9) W ltac:(lia)) as U.
    unfold contain_size.
    destruct (Z.eqb_spec (tw * 10 ^ 9) (tw * py_round_div (h * tw) w)) as [E'|N'].
    + f_equal. nia.
    + destruct (Z.ltb_spec (tw * py_round_div (h * tw) w) (tw * 10 ^ 9)); [|nia].
      now rewrite py_round_div_exact.
  - pose proof (py_round_div_le (w * 10 ^ 9) h tw Hh ltac:(lia)) as U.
    unfold contain_size.
    destruct (Z.eqb_spec (py_round_div (w * 10 ^ 9) h * 10 ^ 9) (tw * 10 ^ 9)) as [E'|N'].
    + f_equal. lia.
    + destruct (Z.ltb_spec (tw * 10 ^ 9) (py_round_div (w * 10 ^ 9) h * 10 ^ 9)); [lia|].
      now rewrite py_round_div_exact.
Qed.


(** A loaded frame has the size of its source or one its resize asked for,
    never an empty one. *)
Lemma resize_to_width_nonempty tw fm im im' :
  (1 <= fst (size im))%Z -> (1 <= snd (size im))%Z ->
  resize_to_width tw fm im = Some im' ->
  (1 <= fst (size im'))%Z /\ (1 <= snd (size im'))%Z.
Proof.
  intros W Hh.
  assert (I : Some im = Some im' ->
              (1 <= fst (size im'))%Z /\ (1 <= snd (size im'))%Z)
    by (intros [= <-]; split; assumption).
  assert (R : forall sz f, resize im sz f = Some im' ->
              (1 <= fst (size im'))%Z /\ (1 <= snd (size im'))%Z).
  { intros sz f. unfold resize. destruct (size_eqb (size im) sz); [exact I|].
    destruct (Z.ltb_spec (fst sz) 1); [discriminate|].
    destruct (Z.ltb_spec (snd sz) 1); [discriminate|].
    intros [= <-]. split; assumption. }
  unfold resize_to_width. destruct tw as [tw|]; [|exact I].
  destruct (negb _ && _); [|exact I].
  destruct (String.eqb fm "fit").
  - destruct (_ =? 0)%Z; [discriminate|]. apply R.
  - destruct (String.eqb fm "stretch"); [|exact I].
    destruct (size im) as [w h]. destruct (negb _); [|exact I].
    destruct (w =? 0)%Z; [discriminate|]. apply R.
Qed.


End LoaderMore.

Section LoaderMoreRuns.
#[local] Existing Instance toy_pillow.

Lemma fit_scales_to_the_target_width_witness :
  exists im',
    resize_to_width (Some 6%Z) "fit" tall_frame = Some im' /\
    size im' = (6, 12)%Z.
Proof.
  destruct (resize_to_width (Some 6%Z) "fit" tall_frame) as [im'|] eqn:E;
    [|discriminate E].
  exists im'. split; [reflexivity|].
  destruct (fit_scales_to_the_target_width tall_frame im' 2 4 6 eq_refl) as [F _];
    try lia; try exact E.
  destruct F as [Fw Fh]; [lia|].
  destruct (size im') as [w' h']. cbn in *. subst w'. f_equal.
  unfold nearest_to in Fh. lia.
Defined.



End LoaderMoreRuns.

Lemma strict_decode_nonempty : @decode_nonempty strict_pillow.
Proof.
  intros fp im. simpl. unfold strict_decode.
  destruct (toy_decode fp) as [im0|]; [|discriminate].
  destruct (Z.leb_spec 1 (fst (size im0))), (Z.leb_spec 1 (snd (size im0)));
    try discriminate.
  intros [= <-]. split; assumption.
Qed.

Section LoaderStrictRuns.
#[local] Existing Instance strict_pillow.


End LoaderStrictRuns.

(* ------------------------------------------------------------------ *)
(** ** Further properties: encoder, timing, guard and loop *)

Lemma div255_between a lo hi :
  (0 <= lo)%Z -> (hi <= 255)%Z -> (255 * lo <= a <= 255 * hi)%Z ->
  (lo <= div255 a <= hi)%Z.
Proof.
  intros L Hi B. unfold div255. rewrite !Z.shiftr_div_pow2 by lia.
  change (2 ^ 8)%Z with 256%Z. Z.div_mod_to_equations. lia.
Qed.

Lemma blend8_between mask x y :
  is_byte mask -> is_byte x -> is_byte y -> between (blend8 mask x y) x y.
Proof.
  unfold is_byte, between, blend8. intros M X Y.
  apply div255_between; try lia. nia.
Qed.

Lemma blend_pixel_props mask : forall (p1 p2 : Pixel),
  is_byte mask -> Forall is_byte p1 -> Forall is_byte p2 ->
  List.length p1 = List.length p2 ->
  Forall2 (fun v xy => between v (fst xy) (snd xy))
          (blend_pixel mask p1 p2) (combine p1 p2) /\
  (mask = 255%Z -> blend_pixel mask p1 p2 = p2) /\
  (mask = 0%Z -> blend_pixel mask p1 p2 = p1).
Proof.
  intros p1. induction p1 as [|x p1 IH]; intros [|y p2] M F1 F2 L;
    try discriminate; [repeat split; constructor|].
  apply Forall_cons_iff in F1 as [X F1]. apply Forall_cons_iff in F2 as [Y F2].
  injection L as L. destruct (IH p2 M F1 F2 L) as (B & O & T).
  unfold blend_pixel in *. simpl. split; [|split].
  - constructor; [now apply blend8_between|exact B].
  - intros ->. rewrite O by reflexivity. f_equal. now apply blend8_255.
  - intros ->. rewrite T by reflexivity. f_equal. now apply blend8_0.
Qed.

Section EncoderMore.
Context `{Pillow}.

Lemma resize_all_same_size sz : forall frames,
  Forall (fun im => size im = sz) frames -> resize_all sz frames = Some frames.
Proof.
  induction 1 as [|im l E _ IH]; [reflexivity|]. simpl.
  rewrite E, size_eqb_refl, IH. reflexivity.
Qed.


(** X13. The buffer the transparency-preserving quantiser works on, pixel
    by pixel: where the frame is opaque (alpha 255) it holds the colour of
    the frame unchanged, where it is transparent (alpha 0) it holds
    magenta, and in between every band lies between magenta's and the
    colour's, so half-transparent pixels are tinted towards magenta. *)
Theorem matte_keeps_opaque_pixels_and_tints_the_rest :
  forall (im : Image) (k : nat) (px a c : Pixel),
    nth_error (data (matte_composite im)) k = Some px ->
    nth_error (data im) k = Some a ->
    nth_error (convert_data "RGB" im) k = Some c ->
    List.length c = 3%nat -> Forall is_byte c -> is_byte (last a 0%Z) ->
    Forall2 (fun v xy => between v (fst xy) (snd xy)) px (combine MAGENTA c) /\
    (last a 0%Z = 255%Z -> px = c) /\
    (last a 0%Z = 0%Z -> px = MAGENTA).
Proof.
  intros im k px a c Ek Ea Ec L C A.
  unfold matte_composite, composite in Ek. simpl in Ek.
  rewrite nth_error_map in Ek.
  destruct (nth_error (combine _ _) k) as [[[p1 p2] m]|] eqn:E; [|discriminate].
  injection Ek as <-. simpl.
  apply nth_error_combine in E as [E Em]. apply nth_error_combine in E as [E1 E2].
  cbn [last_band new convert data] in Em, E1, E2.
  rewrite nth_error_map in Em. unfold Pixel in *. rewrite Ea in Em.
  injection Em as <-. simpl hd.
  apply nth_error_In in E2. apply repeat_spec in E2. subst p2.
  rewrite Ec in E1. injection E1 as <-.
  apply blend_pixel_props; auto.
  unfold MAGENTA, is_byte. repeat constructor; lia.
Qed.

End EncoderMore.

Section EncoderMoreRuns.
#[local] Existing Instance toy_pillow.


Lemma matte_keeps_opaque_pixels_and_tints_the_rest_witness :
  nth_error (data (matte_composite mixed_alpha_frame)) 1 = Some [10; 200; 30]%Z /\
  Forall2 (fun v xy => between v (fst xy) (snd xy))
          [127; 0; 127]%Z (combine MAGENTA [0; 0; 0]%Z).
Proof.
  split.
  - destruct (@matte_keeps_opaque_pixels_and_tints_the_rest toy_pillow
                mixed_alpha_frame 1 [10; 200; 30]%Z [10; 200; 30; 255]%Z
                [10; 200; 30]%Z eq_refl eq_refl eq_refl eq_refl) as (_ & O & _).
    + unfold is_byte. repeat constructor; lia.
    + unfold is_byte. simpl. lia.
    + reflexivity.
  - destruct (@matte_keeps_opaque_pixels_and_tints_the_rest toy_pillow
                mixed_alpha_frame 0 [127; 0; 127]%Z [0; 0; 0; 128]%Z
                [0; 0; 0]%Z eq_refl eq_refl eq_refl eq_refl) as (B & _).
    + unfold is_byte. repeat constructor; lia.
    + unfold is_byte. simpl. lia.
    + exact B.
Defined.

End EncoderMoreRuns.

(** X14. For the frame rates the slider offers, 1 to 30, the frame duration
    is between 33 and 1000 ms, it is the integer nearest to 1000 / fps, and
    a higher rate never gives a longer duration. *)
Theorem duration_follows_the_frame_rate :
  forall fps : Z,
    (1 <= fps <= 30)%Z ->
    (33 <= duration_of fps <= 1000)%Z /\
    nearest_to (duration_of fps) 1000 fps /\
    (forall fps', (fps <= fps' <= 30)%Z -> (duration_of fps' <= duration_of fps)%Z).
Proof.
  intros fps R.
  pose proof (py_round_div_nearest 1000 fps ltac:(lia)) as N.
  assert (B : (33 <= py_round_div 1000 fps <= 1000)%Z).
  { unfold nearest_to in N. nia. }
  assert (E : duration_of fps = py_round_div 1000 fps) by (unfold duration_of; lia).
  rewrite E. split; [exact B|]. split; [exact N|].
  intros fps' R'. rewrite <- E.
  assert (I : forall x, (1 <= x <= 30)%Z -> In x SLIDER_FPS).
  { intros x Rx. unfold SLIDER_FPS. apply in_map_iff. exists (Z.to_nat x).
    split; [lia|]. apply in_seq. lia. }
  assert (C : forallb (fun a => forallb (fun b =>
                implb (a <=? b)%Z (duration_of b <=? duration_of a)%Z) SLIDER_FPS)
                SLIDER_FPS = true) by (vm_compute; reflexivity).
  rewrite forallb_forall in C. specialize (C fps (I fps R)).
  rewrite forallb_forall in C. specialize (C fps' (I fps' ltac:(lia))).
  destruct (Z.leb_spec fps fps'); [|lia]. simpl in C. now apply Z.leb_le.
Qed.

Lemma duration_follows_the_frame_rate_witness :
  (33 <= duration_of 30 <= 1000)%Z /\ (duration_of 24 <= duration_of 10)%Z.
Proof.
  split.
  - exact (proj1 (duration_follows_the_frame_rate 30 ltac:(lia))).
  - apply (proj2 (proj2 (duration_follows_the_frame_rate 10 ltac:(lia)))). lia.
Defined.

Lemma total_pixels_app l1 l2 :
  total_pixels (l1 ++ l2) = (total_pixels l1 + total_pixels l2)%Z.
Proof.
  induction l1 as [|f l1 IH]; [reflexivity|]. simpl. unfold total_pixels in *.
  simpl. rewrite IH. lia.
Qed.

(** X15. The safety guard adds up the pixels of the frames: for frames no
    larger than W x H the sum is at most their number times W * H, so a
    request whose frames cannot exceed 200,000,000 pixels in total is never
    warned about; and the sum over a list put together from two lists is
    the sum of their sums. *)
Theorem pixel_guard_is_bounded_by_the_frame_sizes :
  forall (frames : list Image) (W Hh : Z),
    Forall (fun f => (0 <= fst (size f) <= W)%Z /\ (0 <= snd (size f) <= Hh)%Z) frames ->
    (0 <= total_pixels frames <= Z.of_nat (List.length frames) * (W * Hh))%Z /\
    ((Z.of_nat (List.length frames) * (W * Hh) <= 200000000)%Z ->
     very_large frames = false) /\
    (forall more, total_pixels (frames ++ more) =
                  (total_pixels frames + total_pixels more)%Z).
Proof.
  intros frames W Hh F.
  assert (B : (0 <= total_pixels frames <= Z.of_nat (List.length frames) * (W * Hh))%Z).
  { induction F as [|f l [Fw Fh] _ IH]; [simpl; unfold total_pixels; simpl; lia|].
    unfold total_pixels in *. cbn [fold_right List.length].
    rewrite Nat2Z.inj_succ. nia. }
  split; [exact B|]. split.
  - intros L. unfold very_large. apply Z.ltb_ge. lia.
  - intros more. apply total_pixels_app.
Qed.

Lemma pixel_guard_is_bounded_by_the_frame_sizes_witness :
  very_large [tall_frame; tall_frame; transparent_frame] = false.
Proof.
  apply (proj1 (proj2 (pixel_guard_is_bounded_by_the_frame_sizes
                         [tall_frame; tall_frame; transparent_frame] 2 4
                         ltac:(repeat constructor; simpl; lia)))).
  simpl. lia.
Defined.

Lemma two_or_more {A} (l : list A) :
  (2 <= List.length l)%nat -> exists a mid z, l = a :: mid ++ [z].
Proof.
  destruct l as [|a t]; simpl; [lia|]. intros L.
  destruct (exists_last (l := t)) as (mid & z & ->); [destruct t; simpl in *; [lia|discriminate]|].
  eauto.
Qed.

Lemma boomerang_unfold {A} (a z : A) mid :
  boomerang true (a :: mid ++ [z]) = (a :: mid ++ [z]) ++ rev mid.
Proof.
  unfold boomerang.
  replace (1 <? List.length (a :: mid ++ [z]))%nat with true.
  - simpl andb. cbv iota. now rewrite slice_inner_rev.
  - symmetry. apply Nat.ltb_lt. simpl. rewrite length_app. simpl. lia.
Qed.

(** X16. The boomerang of two or more frames: it has 2n - 2 frames, starts
    with the same frame, shows the same frames as the list and no other,
    and loops without a seam: followed by its first frame it reads the same
    backwards as forwards. *)
Theorem boomerang_loops_without_a_seam :
  forall (A : Type) (frames : list A),
    (2 <= List.length frames)%nat ->
    List.length (boomerang true frames) = (2 * List.length frames - 2)%nat /\
    hd_error (boomerang true frames) = hd_error frames /\
    (forall x, In x (boomerang true frames) <-> In x frames) /\
    rev (boomerang true frames ++ firstn 1 frames) =
    boomerang true frames ++ firstn 1 frames.
Proof.
  intros A frames L. destruct (two_or_more frames L) as (a & mid & z & ->).
  rewrite boomerang_unfold. split; [|split; [|split]].
  - simpl. rewrite !length_app, length_rev. simpl. lia.
  - reflexivity.
  - intros x. split.
    + intros [I|I]%in_app_or; [exact I|].
      right. apply in_or_app. left. now apply in_rev.
    + intros I. apply in_or_app. now left.
  - cbn [firstn].
    replace (((a :: mid ++ [z]) ++ rev mid) ++ [a])
      with ([a] ++ mid ++ [z] ++ rev mid ++ [a])
      by (simpl; now rewrite <- !app_assoc).
    rewrite !rev_app_distr, rev_involutive. simpl.
    now rewrite <- !app_assoc.
Qed.

Lemma boomerang_loops_without_a_seam_witness :
  List.length (boomerang true [1; 2; 3; 4; 5]%nat) = 8%nat.
Proof.
  exact (proj1 (boomerang_loops_without_a_seam nat [1; 2; 3; 4; 5]%nat
                  ltac:(simpl; lia))).
Defined.

(* ------------------------------------------------------------------ *)
(** ** Further properties: the build request *)

Lemma filter_all_of_length {A} (f : A -> bool) : forall l,
  List.length (filter f l) = List.length l -> filter f l = l.
Proof.
  induction l as [|x l IH]; simpl; [reflexivity|]. destruct (f x); simpl; intros L.
  - f_equal. apply IH. lia.
  - pose proof (filter_length_le f l). lia.
Qed.

Lemma boomerang_length {A} b (l : list A) :
  List.length (boomerang b l) = frames_shown b (List.length l).
Proof.
  unfold frames_shown. destruct b; [|reflexivity].
  destruct (Nat.ltb_spec 1 (List.length l)) as [L|L].
  - destruct (two_or_more l L) as (a & mid & z & ->). rewrite boomerang_unfold.
    simpl. rewrite !length_app, length_rev. simpl. lia.
  - unfold boomerang. destruct (Nat.ltb_spec 1 (List.length l)); [lia|reflexivity].
Qed.

Lemma boomerang_head {A} b (x : A) l : exists t, boomerang b (x :: l) = x :: t.
Proof. unfold boomerang. destruct (b && _); simpl; eauto. Qed.

Section RequestMore.
Context `{Pillow}.

Lemma load_entry_nonempty zf o n im :
  decode_nonempty -> load_entry zf o n = Some im ->
  (1 <= fst (size im))%Z /\ (1 <= snd (size im))%Z.
Proof.
  intros D. unfold load_entry, load_and_prepare_image.
  destruct (zf_open zf n) as [fp|]; [|discriminate].
  destruct (decode fp) as [src|] eqn:Ed; [|discriminate].
  destruct (resize_to_width _ _ _) as [r|] eqn:R; [|discriminate].
  intros [= <-]. destruct (D fp src Ed) as [W Hh].
  rewrite size_to_palette_step.
  apply (resize_to_width_nonempty _ _ _ _) with (3 := R);
    now rewrite size_convert_colors.
Qed.

Lemma load_partition zf o : forall names,
  (List.length (flat_map (frames_of zf o) names) +
   List.length (filter (is_skipped zf o) names) = List.length names)%nat.
Proof.
  induction names as [|n names IH]; simpl; [reflexivity|].
  unfold frames_of at 1, is_skipped at 1.
  destruct (load_entry zf o n); simpl; rewrite ?length_app; simpl; lia.
Qed.

Lemma first_frame_nonempty zf o names f fs :
  decode_nonempty -> flat_map (frames_of zf o) names = f :: fs ->
  (1 <= fst (size f))%Z /\ (1 <= snd (size f))%Z.
Proof.
  intros D E. assert (I : In f (flat_map (frames_of zf o) names))
    by (rewrite E; now left).
  apply in_flat_map in I as (n & _ & I). unfold frames_of in I.
  destruct (load_entry zf o n) as [im|] eqn:L; [|contradiction].
  destruct I as [<-|[]]. eapply load_entry_nonempty; eassumption.
Qed.


End RequestMore.

Section RequestStrictRuns.
#[local] Existing Instance strict_pillow.


End RequestStrictRuns.

(** X18. Descending order against ascending order. For names that can be
    compared with one another and have different keys, the descending sort
    is the ascending sort reversed. For names with the same key it is not:
    the sort is stable in both directions, so two names that differ only in
    letter case or in zero padding keep their archive order either way. *)
Theorem descending_reverses_ascending_except_for_ties :
  (forall names : list string,
     (forall a b, In a names -> In b names ->
                  key_lt (natural_key a) (natural_key b) <> None) ->
     NoDup (map natural_key names) ->
     exists ascending,
       sort_names false names = Some ascending /\
       sort_names true names = Some (rev ascending)) /\
  (forall (a b : string) (descending : bool),
     natural_key a = natural_key b ->
     sort_names descending [a; b] = Some [a; b]).
Proof.
  split.
  - intros names C N.
    destruct (sort_names_total false names C) as [s1 E1].
    destruct (sort_names_total true names C) as [s2 E2].
    exists s1. split; [exact E1|]. rewrite E2. f_equal.
    destruct (sort_names_ordered _ _ _ E1) as [P1 S1].
    destruct (sort_names_ordered _ _ _ E2) as [P2 S2].
    rewrite <- (rev_involutive s2). f_equal. symmetry.
    apply StronglySorted_rev in S2. simpl in S2.
    eapply ordered_perm_unique; [exact S1|exact S2| |].
    + eapply perm_trans; [apply Permutation_sym; exact P1|].
      eapply perm_trans; [exact P2|apply Permutation_rev].
    + intros a b Ia Ib Rab Rba.
      assert (Ek : natural_key a = natural_key b) by now apply key_le_antisym.
      apply (Permutation_in _ (Permutation_sym P1)) in Ia, Ib.
      clear - N Ia Ib Ek. induction names as [|n names IH]; [contradiction|].
      simpl in N. apply NoDup_cons_iff in N as [Nn N].
      destruct Ia as [->|Ia], Ib as [->|Ib]; auto.
      * exfalso. apply Nn. rewrite Ek. now apply in_map.
      * exfalso. apply Nn. rewrite <- Ek. now apply in_map.
  - intros a b d E. unfold sort_names, list_sort.
    destruct d; simpl; rewrite E, key_lt_irrefl; reflexivity.
Qed.

Lemma descending_reverses_ascending_except_for_ties_witness :
  sort_names true ["b2.png"; "a10.png"; "a9.png"] =
    Some ["b2.png"; "a10.png"; "a9.png"] /\
  sort_names true ["A1.png"; "a01.png"] = Some ["A1.png"; "a01.png"].
Proof.
  split.
  - destruct (proj1 descending_reverses_ascending_except_for_ties
                ["b2.png"; "a10.png"; "a9.png"]) as (asc & Ea & Ed).
    + intros a b Ha Hb. simpl in Ha, Hb.
      repeat (destruct Ha as [<-|Ha]; [|]); try contradiction;
        repeat (destruct Hb as [<-|Hb]; [|]); try contradiction; discriminate.
    + simpl. repeat constructor; simpl; intuition discriminate.
    + rewrite Ed. injection Ea as <-. reflexivity.
  - apply (proj2 descending_reverses_ascending_except_for_ties). reflexivity.
Defined.
